(** * Walk decoding over an overlap graph: a model of [utils.py]

    The development follows the source file top-down: the exceptions and
    the event trace the code can produce, the path enumerator [get_paths],
    the alignment oracle [get_edlib_best], and the walk decoder [process]
    with its loop body [step].  External collaborators (the aligner, the
    graph parser, edlib, torch and the decision models) are bundled in
    records of functions, so that every definition stays executable once
    they are supplied. *)

From Stdlib Require Import ZArith QArith Reals Lra Lia.
From stdpp Require Import gmap list strings pretty.

Local Open Scope Z_scope.

(** ** Python exceptions and results *)

Inductive exn :=
  | KeyError (k : Z)
  | IndexError
  | ZeroDivisionError
  | AttributeError
  | UnboundLocalError
  | ExternalError (s : string).

Inductive result (A : Type) :=
  | Ok (a : A)
  | Raise (e : exn).
Arguments Ok {A} a.
Arguments Raise {A} e.

(** Sequencing: an exception skips the rest of the block ([x ← r; k]). *)
#[export] Instance result_bind : MBind result := fun A B k r =>
  match r with
  | Ok a => k a
  | Raise e => Raise e
  end.

(** A Python [for] loop whose body may raise: the first exception ends it. *)
Fixpoint for_each {A S} (xs : list A) (body : S → A → result S) (acc : S)
  : result S :=
  match xs with
  | [] => Ok acc
  | x :: xs' => acc' ← body acc x; for_each xs' body acc'
  end.

(** ** Nodes and the adjacency structure *)

Abbreviation node := Z.
Abbreviation adjacency := (gmap Z (list Z)).

(** [current ^ 1]: the virtual pair of a node. *)
Definition complement (n : node) : node := Z.lxor n 1.

(** ** [get_paths] (lines 32-41)

    Paths are built backwards: the base case is [[start]] and every level of
    the recursion appends its own start node to the paths of the level
    below.  [neighbors[start]] on a missing key raises [KeyError]. *)
Fixpoint get_paths (neighbors : adjacency) (num_nodes : nat) (start : node)
  : result (list (list node)) :=
  match num_nodes with
  | O => Ok [[start]]
  | S d =>
      match neighbors !! start with
      | None => Raise (KeyError start)
      | Some ns =>
          for_each ns
            (fun paths neighbor =>
               next_paths ← get_paths neighbors d neighbor;
               Ok (paths ++ map (fun path => path ++ [start]) next_paths))
            []
      end
  end.

(** ** Sequences, slicing and division as Python has them *)

Abbreviation sequence := (list Ascii.ascii).

(** Clamp a slice bound of a sequence of length [n]: a negative bound counts
    from the end, and both ends saturate. *)
Definition slice_bound (n i : Z) : Z :=
  if i <? 0 then Z.max (i + n) 0 else Z.min i n.

(** [s[i:j]] *)
Definition py_slice {A} (s : list A) (i j : Z) : list A :=
  let n := Z.of_nat (length s) in
  let lo := slice_bound n i in
  let hi := slice_bound n j in
  take (Z.to_nat (hi - lo)) (drop (Z.to_nat lo) s).

(** [a / b] on integers: true division, [ZeroDivisionError] on [b == 0]. *)
Definition true_div (a b : Z) : result Q :=
  if b =? 0 then Raise ZeroDivisionError
  else Ok (Qdiv (inject_Z a) (inject_Z b)).

(** [l[i]] for a list and a non-negative index. *)
Definition index {A} (l : list A) (i : nat) : result A :=
  match l !! i with
  | Some x => Ok x
  | None => Raise IndexError
  end.

(** [a < b] on scores. *)
Definition Qlt_bool (a b : Q) : bool := negb (Qle_bool b a).

(** [min(xs, key=...)]: the first element whose key is minimal; [None]
    stands for the [ValueError] on an empty argument. *)
Fixpoint min_from {A} (key : A → Q) (best : A) (xs : list A) : A :=
  match xs with
  | [] => best
  | x :: xs' =>
      min_from key (if Qlt_bool (key x) (key best) then x else best) xs'
  end.

Definition py_min {A} (key : A → Q) (xs : list A) : option A :=
  match xs with
  | [] => None
  | x :: xs' => Some (min_from key x xs')
  end.

(** ** The aligner and the graph parser, as the oracle uses them *)

Record hit := { r_st : Z; r_en : Z; strand : Z }.

Record oracle_env := {
  (** [reads]: node id to sequence *)
  reads : gmap Z sequence;
  (** [aligner.map(sequence)], as the list of its hits *)
  aligner_map : sequence → list hit;
  (** [graph_parser.translate_nodes_into_sequence2(graph, reads, nodes)] *)
  translate_nodes_into_sequence2 : list node → result sequence;
  (** [sequence.reverse_complement()] *)
  reverse_complement : sequence → sequence;
  (** [graph.edata['prefix_length'][find_edge_index(graph, u, v)].item()] *)
  prefix_length : node → node → result Z;
  reference_seq : sequence;
  (** [edlib.align(query, target)['editDistance']] *)
  editDistance : sequence → sequence → Z
}.

(** What the oracle prints when no candidate is left (lines 67-70). *)
Inductive diagnostic :=
  | AllOppositeStrand
  | GraphIndex (idx : Z)
  | CurrentNode (current : node)
  | CandidatePaths (paths : list (list node)).

Section Oracle.
Variable env : oracle_env.

(** [anchor] (lines 14-19) *)
Definition anchor (current : node) : result (Z * Z * Z) :=
  match reads env !! current with
  | None => Raise (KeyError current)
  | Some sequence =>
      hit ← index (aligner_map env sequence) 0;
      Ok (r_st hit, r_en hit, strand hit)
  end.

(** The body of the loop over candidate paths (lines 50-61): [Ok None]
    is the [continue] of the strand filter. *)
Definition score_path (ref_start strand : Z) (path : list node)
  : result (option (list node * Q)) :=
  p1 ← index path 1;
  '(_, _, next_strand) ← anchor p1;
  if negb (next_strand =? strand) then Ok None
  else
    sequence ← translate_nodes_into_sequence2 env (drop 1 path);
    let sequence :=
      if strand =? -1 then reverse_complement env sequence else sequence in
    p0 ← index path 0;
    pl ← prefix_length env p0 p1;
    let edlib_start := ref_start + pl in
    let edlib_end := edlib_start + Z.of_nat (length sequence) in
    let reference_query := py_slice (reference_seq env) edlib_start edlib_end in
    let distance := editDistance env reference_query sequence in
    score ← true_div distance (edlib_end - edlib_start);
    Ok (Some (path, score)).

(** Whether a candidate passes the strand filter of lines 50-52: its
    second node anchors, and on the strand of the current node. *)
Definition same_strand (strand : Z) (path : list node) : bool :=
  match p1 ← index path 1; anchor p1 with
  | Ok (_, _, next_strand) => next_strand =? strand
  | Raise _ => false
  end.

(** The list [distances] after the loop (lines 48-61). *)
Definition edlib_distances (ref_start strand : Z) (paths : list (list node))
  : result (list (list node * Q)) :=
  for_each paths
    (fun distances path =>
       r ← score_path ref_start strand path;
       Ok (match r with
           | Some d => distances ++ [d]
           | None => distances
           end))
    [].

(** The candidate paths in forward order (line 47). *)
Definition candidate_paths (neighbors : adjacency) (current : node)
  : result (list (list node)) :=
  paths ← get_paths neighbors 4 current;
  Ok (map (@rev node) paths).

(** [get_edlib_best] (lines 44-71): the chosen neighbor, or [None]
    together with the diagnostics printed on the way. *)
Definition get_edlib_best (idx : Z) (current : node) (neighbors : adjacency)
  : result (list diagnostic * option node) :=
  '(ref_start, _, strand) ← anchor current;
  paths ← candidate_paths neighbors current;
  distances ← edlib_distances ref_start strand paths;
  match py_min snd distances with
  | Some (best_path, _) =>
      best_neighbor ← index best_path 1;
      Ok ([], Some best_neighbor)
  | None =>
      Ok ([AllOppositeStrand; GraphIndex idx; CurrentNode current;
           CandidatePaths paths], None)
  end.
End Oracle.

(** ** The decision model, the loss and the optimizer *)

(** The two model classes of [models], and anything else a caller may pass. *)
Inductive model_kind := GCNModel | SequentialModel | OtherModel.

#[export] Instance model_kind_eq_dec : EqDecision model_kind.
Proof. solve_decision. Defined.

(** [total_loss] starts as the integer [0] and becomes a tensor with the
    first [total_loss += loss]. *)
Inductive running_loss (Loss : Type) :=
  | IntZero
  | Tensor (l : Loss).
Arguments IntZero {Loss}.
Arguments Tensor {Loss} l.

Section Decoder.
Context {Score Loss Latent Weights : Type}.

(** What the decoder calls on torch and on the model.  A loss tensor and
    the float [loss.item()] are the same [Loss] here. *)
Record learner := {
  kind : model_kind;
  (** [torch.zeros((graph.num_nodes(), dim_latent))] *)
  zeros : Latent;
  (** [model(graph, last_latent, device, 'embed')] *)
  embed : Weights → Latent → Latent;
  (** [model(graph, last_latent, device, 'classify')], squeezed *)
  classify : Weights → Latent → list Score;
  (** [model(graph, latent_features=last_latent, device=device)] *)
  forward : Weights → Latent → list Score * Latent;
  (** the order [torch.topk] compares scores with *)
  score_ltb : Score → Score → bool;
  (** [nn.CrossEntropyLoss()] on one row of scores and one target index *)
  criterion : list Score → nat → Loss;
  (** [+] on loss tensors *)
  loss_add : Loss → Loss → Loss;
  (** the weights after [zero_grad(); l.backward(); optimizer.step()] *)
  optimizer_update : Weights → Loss → Weights
}.

(** Everything the decoder prints or asks of the model and the optimizer,
    in program order. *)
Inductive event :=
  | Print_iterating
  | Print_shape (n : nat)
  | Print_node (current : node)
  | Print_prediction (previous : option node) (current : node)
      (nbrs : list node) (actions : list Score) (choice : node)
      (ground_truth : option node)
  | Print_oracle (d : diagnostic)
  | Model_embed
  | Model_classify
  | Model_forward
  | Zero_grad
  | Backward (l : Loss)
  | Optimizer_step.

(** The optimizer's part of a trace. *)
Definition is_optimizer_event (e : event) : bool :=
  match e with
  | Zero_grad | Backward _ | Optimizer_step => true
  | _ => false
  end.

Definition optimizer_events (evs : list event) : list event :=
  filter (fun e => is_optimizer_event e = true) evs.

(** One optimization step on the loss [l] (lines 182-184, 188-190). *)
Definition update_events (l : Loss) : list event :=
  [Zero_grad; Backward l; Optimizer_step].

(** The local variables of [process] that the loop reads and writes. *)
Record state := {
  current : node;
  visited : gset Z;
  walk : list node;
  loss_list : list Loss;
  total_loss : running_loss Loss;
  total : nat;
  correct : nat;
  last_latent : Latent;
  predict_actions : option (list Score);
  weights : Weights;
  output : list event
}.

Definition append_walk (s : state) : state :=
  {| current := current s; visited := visited s;
     walk := walk s ++ [current s]; loss_list := loss_list s;
     total_loss := total_loss s; total := total s; correct := correct s;
     last_latent := last_latent s; predict_actions := predict_actions s;
     weights := weights s; output := output s |}.

Definition mark_visited (s : state) : state :=
  {| current := current s;
     visited := visited s ∪ {[current s]} ∪ {[complement (current s)]};
     walk := walk s; loss_list := loss_list s;
     total_loss := total_loss s; total := total s; correct := correct s;
     last_latent := last_latent s; predict_actions := predict_actions s;
     weights := weights s; output := output s |}.

Definition set_current (c : node) (s : state) : state :=
  {| current := c; visited := visited s;
     walk := walk s; loss_list := loss_list s;
     total_loss := total_loss s; total := total s; correct := correct s;
     last_latent := last_latent s; predict_actions := predict_actions s;
     weights := weights s; output := output s |}.

Definition emit (evs : list event) (s : state) : state :=
  {| current := current s; visited := visited s;
     walk := walk s; loss_list := loss_list s;
     total_loss := total_loss s; total := total s; correct := correct s;
     last_latent := last_latent s; predict_actions := predict_actions s;
     weights := weights s; output := output s ++ evs |}.

Definition set_model_output (pa : list Score) (lat : Latent) (s : state)
  : state :=
  {| current := current s; visited := visited s;
     walk := walk s; loss_list := loss_list s;
     total_loss := total_loss s; total := total s; correct := correct s;
     last_latent := lat; predict_actions := Some pa;
     weights := weights s; output := output s |}.

Definition set_weights (w : Weights) (s : state) : state :=
  {| current := current s; visited := visited s;
     walk := walk s; loss_list := loss_list s;
     total_loss := total_loss s; total := total s; correct := correct s;
     last_latent := last_latent s; predict_actions := predict_actions s;
     weights := w; output := output s |}.

Variable model : learner.

(** [total_loss += loss] *)
Definition accumulate (t : running_loss Loss) (loss : Loss)
  : running_loss Loss :=
  match t with
  | IntZero => Tensor loss
  | Tensor l => Tensor (loss_add model l loss)
  end.

(** [total_loss] after adding the losses [ls] one by one. *)
Definition sum_losses (ls : list Loss) : running_loss Loss :=
  fold_left accumulate ls IntZero.

(** Lines 170-178: the bookkeeping of one supervised branch. *)
Definition record_branch (loss : Loss) (choice best_neighbor : node)
    (s : state) : state :=
  {| current := best_neighbor; visited := visited s;
     walk := walk s; loss_list := loss_list s ++ [loss];
     total_loss := accumulate (total_loss s) loss;
     total := S (total s);
     correct := if decide (choice = best_neighbor)
                then S (correct s) else correct s;
     last_latent := last_latent s; predict_actions := predict_actions s;
     weights := weights s; output := output s |}.

(** [t[i]] on a one-dimensional tensor: negative indices wrap once. *)
Definition tensor_index (t : list Score) (i : Z) : result Score :=
  let n := Z.of_nat (length t) in
  if (0 <=? i) && (i <? n) then index t (Z.to_nat i)
  else if (- n <=? i) && (i <? 0) then index t (Z.to_nat (i + n))
  else Raise IndexError.

(** [t[ids]] for a list of indices. *)
Definition tensor_gather (t : list Score) (ids : list Z)
  : result (list Score) :=
  for_each ids (fun acc i => x ← tensor_index t i; Ok (acc ++ [x])) [].

(** [torch.topk(actions, k=1, dim=0)]: the position of a largest score
    (the first one, where several are largest). *)
Fixpoint argmax_from (best_i : nat) (best : Score) (i : nat)
    (xs : list Score) : nat :=
  match xs with
  | [] => best_i
  | x :: xs' =>
      if score_ltb model best x then argmax_from i x (S i) xs'
      else argmax_from best_i best (S i) xs'
  end.

Definition topk1 (actions : list Score) : result nat :=
  match actions with
  | [] => Raise (ExternalError "topk")
  | x :: xs => Ok (argmax_from 0%nat x 1%nat xs)
  end.

Variable env : oracle_env.
Variable idx : Z.
Variable neighbors : adjacency.
Variable mode : string.

Definition training : bool := String.eqb mode "train".

(** How one pass through the loop body ends. *)
Inductive flow :=
  | Continue (s : state)
  | Break (s : state)
  | Abort (e : exn) (s : state).

(** [None if len(walk) < 2 else walk[-2]] (line 100) *)
Definition previous (walk : list node) : option node :=
  if (length walk <? 2)%nat then None else walk !! (length walk - 2)%nat.

(** Lines 181-184. *)
Definition sequential_update (loss : Loss) (s : state) : state :=
  if bool_decide (kind model = SequentialModel) && training
  then set_weights (optimizer_update model (weights s) loss)
         (emit [Zero_grad; Backward loss; Optimizer_step] s)
  else s.

(** Lines 154-155. *)
Definition run_model (s : state) : state :=
  if decide (kind model = SequentialModel)
  then let '(pa, lat) := forward model (weights s) (last_latent s) in
       emit [Model_forward] (set_model_output pa lat s)
  else s.

(** Lines 156-158: the scores of the neighbors [ns], the position of the
    best one and the neighbor at that position. *)
Definition model_choice (ns : list node) (s : state)
  : result (list Score * nat * node) :=
  match predict_actions s with
  | None => Raise UnboundLocalError
  | Some pa =>
      actions ← tensor_gather pa ns;
      index_ ← topk1 actions;
      choice ← index ns index_;
      Ok (actions, index_, choice)
  end.

(** Lines 151-184: a node with two or more neighbors [ns].  The mask of
    line 151 is built and never read, so it is left out. *)
Definition branch (ns : list node) (s : state) : flow :=
  let s := run_model s in
  match model_choice ns s with
  | Raise e => Abort e s
  | Ok (actions, index_, choice) =>
  match get_edlib_best env idx (current s) neighbors with
  | Raise e => Abort e s
  | Ok (diag, best_neighbor) =>
      let s := emit (map Print_oracle diag ++
                     [Print_prediction (previous (walk s)) (current s) ns
                        actions choice best_neighbor]) s in
      match best_neighbor with
      | None => Break s
      | Some best =>
          let loss := criterion model actions index_ in
          Continue (sequential_update loss
                      (record_branch loss choice best s))
      end
  end end.

(** Lines 135-184: one pass through the body of [while True]. *)
Definition step (s : state) : flow :=
  let s := append_walk s in
  if decide (current s ∈ visited s) then Break s
  else
    let s := mark_visited s in
    match neighbors !! current s with
    | None => Abort (KeyError (current s)) (emit [Print_node (current s)] s)
    | Some [] => Break s
    | Some [n] => Continue (set_current n s)
    | Some ns => branch ns s
    end.

Definition flow_state (f : flow) : state :=
  match f with
  | Continue s | Break s | Abort _ s => s
  end.

(** The state after [k] passes that all ended in [continue] or fell
    through to the next pass. *)
Fixpoint passes (k : nat) (s : state) : option state :=
  match k with
  | O => Some s
  | S k' =>
      match step s with
      | Continue s' => passes k' s'
      | _ => None
      end
  end.

(** What the counters and the trace keep in step with the loss history:
    [total] counts the recorded losses, [total_loss] is their sum,
    [correct] never exceeds [total], and the optimizer has run once per
    recorded loss under the sequential model in training mode and not at
    all otherwise. *)
Definition bookkeeping (s : state) : Prop :=
  total s = length (loss_list s) ∧
  total_loss s = sum_losses (loss_list s) ∧
  (correct s ≤ total s)%nat ∧
  optimizer_events (output s) =
    if bool_decide (kind model = SequentialModel) && training
    then flat_map update_events (loss_list s) else [].

(** How the loop ends; [Exhausted] is a loop still running when the
    fuel is spent. *)
Inductive run :=
  | Finished (s : state)
  | Raised (e : exn) (s : state)
  | Exhausted (s : state).

Definition exhausted (r : run) : Prop :=
  match r with
  | Exhausted _ => True
  | _ => False
  end.

Fixpoint loop (fuel : nat) (s : state) : run :=
  match fuel with
  | O => Exhausted s
  | S fuel' =>
      match step s with
      | Continue s' => loop fuel' s'
      | Break s' => Finished s'
      | Abort e s' => Raised e s'
      end
  end.

(** What a call leaves behind: the events, the model's weights, and the
    returned pair or the exception. *)
Record outcome := {
  events : list event;
  final_weights : Weights;
  returned : result (list Loss * Q)
}.

(** Lines 192-193. *)
Definition accuracy_and_return (s : state) : outcome :=
  {| events := output s; final_weights := weights s;
     returned :=
       accuracy ← true_div (Z.of_nat (correct s)) (Z.of_nat (total s));
       Ok (loss_list s, accuracy) |}.

(** Lines 186-193. *)
Definition after_loop (s : state) : outcome :=
  if bool_decide (kind model = GCNModel) && training then
    let s := emit [Zero_grad] s in
    match total_loss s with
    | IntZero =>
        {| events := output s; final_weights := weights s;
           returned := Raise AttributeError |}
    | Tensor l =>
        accuracy_and_return
          (set_weights (optimizer_update model (weights s) l)
             (emit [Backward l; Optimizer_step] s))
    end
  else accuracy_and_return s.

(** Line 112: [list(set(range(n)) - set(pred.keys()))].  Python does not
    say in which order a set is listed, and neither does [elements];
    nothing below depends on it. *)
Definition start_nodes (num_nodes : nat) (pred : adjacency) : list node :=
  elements (list_to_set (Z.of_nat <$> seq 0 num_nodes) ∖ dom pred).

(** Lines 119-132: the state on entry to the loop. *)
Definition initial_state (w : Weights) (start : node) : state :=
  let s := {| current := start; visited := ∅; walk := []; loss_list := [];
              total_loss := IntZero; total := 0%nat; correct := 0%nat;
              last_latent := zeros model; predict_actions := None;
              weights := w; output := [Print_iterating] |} in
  if decide (kind model = GCNModel) then
    let lat := embed model w (last_latent s) in
    let pa := classify model w lat in
    emit [Model_embed; Model_classify; Print_shape (length pa)]
      (set_model_output pa lat s)
  else s.

(** Every node the walk can stand on: the start node and the entries of
    the adjacency lists. *)
Definition walkable (start : node) : gset Z :=
  {[start]} ∪ ⋃ ((fun kv => list_to_set kv.2) <$> map_to_list neighbors).

(** [process] with an explicit bound on the passes through the loop. *)
Definition process_bounded (fuel : nat) (w : Weights) (num_nodes : nat)
    (pred : adjacency) : option outcome :=
  match start_nodes num_nodes pred with
  | [] => Some {| events := []; final_weights := w;
                  returned := Raise IndexError |}
  | start :: _ =>
      match loop fuel (initial_state w start) with
      | Finished s => Some (after_loop s)
      | Raised e s => Some {| events := output s;
                              final_weights := weights s;
                              returned := Raise e |}
      | Exhausted _ => None
      end
  end.

(** [process] (lines 108-193); line 113 takes the first start node.
    Every pass that continues marks a node of [walkable] that was not
    marked before, so one pass more than there are such nodes is enough
    (see [process_returns]). *)
Definition process (w : Weights) (num_nodes : nat) (pred : adjacency)
  : option outcome :=
  match start_nodes num_nodes pred with
  | [] => process_bounded 0 w num_nodes pred
  | start :: _ =>
      process_bounded (S (size (walkable start))) w num_nodes pred
  end.
End Decoder.

(** ** Edges and chains of the adjacency structure *)

(** [b in neighbors[a]], false when [a] has no entry. *)
Definition is_edge (neighbors : adjacency) (a b : node) : bool :=
  match neighbors !! a with
  | Some ns => bool_decide (b ∈ ns)
  | None => false
  end.

(** Every node of [p] but the last is followed by one of its neighbors. *)
Fixpoint is_chain (neighbors : adjacency) (p : list node) : bool :=
  match p with
  | a :: (b :: _) as rest => is_edge neighbors a b && is_chain neighbors rest
  | _ => true
  end.

(** How a run of the loop ended, whatever the way. *)
Definition run_state {Score Loss Latent Weights : Type}
    (r : @run Score Loss Latent Weights) : @state Score Loss Latent Weights :=
  match r with
  | Finished s | Raised _ s | Exhausted s => s
  end.

(** What holds of the walk each time the loop body is entered: no node
    occurs twice in it, nor a node together with its virtual pair; the
    visited set holds its nodes and their virtual pairs and nothing else;
    followed by the current node it is a chain of edges from the start
    node; and all its nodes are walkable. *)
Definition walk_invariant {Score Loss Latent Weights : Type}
    (neighbors : adjacency) (start : node)
    (s : @state Score Loss Latent Weights) : Prop :=
  NoDup (walk s) ∧
  (∀ n, n ∈ walk s → complement n ∉ walk s) ∧
  (∀ n, n ∈ visited s ↔ n ∈ walk s ∨ complement n ∈ walk s) ∧
  is_chain neighbors (walk s ++ [current s]) = true ∧
  head (walk s ++ [current s]) = Some start ∧
  (∀ n, n ∈ walk s ++ [current s] → n ∈ walkable neighbors start).

(** What holds of the walk once the loop has been left. *)
Definition walk_result {Score Loss Latent Weights : Type}
    (neighbors : adjacency) (start : node)
    (s : @state Score Loss Latent Weights) : Prop :=
  (∃ w c, walk s = w ++ [c] ∧ NoDup w ∧
          ∀ n, n ∈ w → complement n ∉ w) ∧
  (∀ n, n ∈ visited s ↔ n ∈ walk s ∨ complement n ∈ walk s) ∧
  is_chain neighbors (walk s) = true ∧
  head (walk s) = Some start ∧
  (∀ n, n ∈ walk s → n ∈ walkable neighbors start).

(** Where the weights stand each time the loop body is entered: updated
    once per recorded loss, in order, under the sequential model in
    training mode, and untouched otherwise. *)
Definition weights_invariant {Score Loss Latent Weights : Type}
    (model : @learner Score Loss Latent Weights) (mode : string)
    (w : Weights) (s : @state Score Loss Latent Weights) : Prop :=
  weights s =
  if bool_decide (kind model = SequentialModel) && training mode
  then fold_left (optimizer_update model) (loss_list s) w
  else w.

(** The model's part of a trace. *)
Definition is_model_event {Score Loss : Type} (e : @event Score Loss) : bool :=
  match e with
  | Model_embed | Model_classify | Model_forward => true
  | _ => false
  end.

Definition model_events {Score Loss : Type} (evs : list (@event Score Loss))
  : list (@event Score Loss) :=
  filter (fun e => is_model_event e = true) evs.

(** The ids a one-dimensional tensor can be indexed with: those of its
    positions, and the negative ones that count from its end. *)
Definition in_table {Score : Type} (t : list Score) (id : Z) : Prop :=
  - Z.of_nat (length t) ≤ id < Z.of_nat (length t).

(** ** [get_overlap_length] and [get_suffix] (lines 22-29) *)

(** [get_overlap_length], given [graph_parser.find_edge_index(graph, ., .)]
    and [graph.prefix_length[.]]. *)
Definition get_overlap_length (find_edge_index : node → node → result Z)
    (graph_prefix_length : Z → result Z) (reads : gmap Z sequence)
    (current neighbor : node) : result Z :=
  idx ← find_edge_index current neighbor;
  match reads !! current with
  | None => Raise (KeyError current)
  | Some read =>
      pl ← graph_prefix_length idx;
      Ok (Z.of_nat (length read) - pl)
  end.

(** [reads[node][overlap_length:]] *)
Definition get_suffix (reads : gmap Z sequence) (node_ : node)
    (overlap_length : Z) : result sequence :=
  match reads !! node_ with
  | None => Raise (KeyError node_)
  | Some read => Ok (py_slice read overlap_length (Z.of_nat (length read)))
  end.

(** ** [get_minimap_best] (lines 74-95) *)

(** [max(xs, key=...)]: the first element whose key is maximal. *)
Fixpoint max_from {A} (key : A → Q) (best : A) (xs : list A) : A :=
  match xs with
  | [] => best
  | x :: xs' =>
      max_from key (if Qlt_bool (key best) (key x) then x else best) xs'
  end.

Definition py_max {A} (key : A → Q) (xs : list A) : option A :=
  match xs with
  | [] => None
  | x :: xs' => Some (max_from key x xs')
  end.

(** The [ValueError] of [max] on an empty list. *)
Definition ValueError : exn := ExternalError "ValueError".

Record minimap_env := {
  (** [graph_parser.get_quality(hits, length)] *)
  get_quality : list hit → Z → result Q;
  (** [open(path, 'w')] *)
  open_fasta : string → result unit
}.

(** What [get_minimap_best] prints and writes. *)
Inductive minimap_event :=
  | Print_neighbor (neighbor : node)
  | Write_fasta (path : string) (header : string) (body : sequence)
  | Print_quality (quality_score : Q).

Section Minimap.
Variable env : oracle_env.
Variable menv : minimap_env.

(** [walk[-min(3, len(walk)):] + [neighbor]] (line 78) *)
Definition node_tr (walk : list node) (neighbor : node) : list node :=
  py_slice walk (- Z.min 3 (Z.of_nat (length walk)))
    (Z.of_nat (length walk))
  ++ [neighbor].

(** ['_'.join(map(str, node_tr)) + '.fasta'] (line 82) *)
Definition fasta_name (nodes : list node) : string :=
  String.concat "_" (pretty <$> nodes) +:+ ".fasta".

(** Lines 80-81: the last 50000 letters. *)
Definition clip (s : sequence) : sequence :=
  let ll := Z.min (Z.of_nat (length s)) 50000 in
  py_slice s (- ll) (Z.of_nat (length s)).

(** Lines 88-91: any failure of [get_quality] counts as quality 0. *)
Definition quality_or_zero (hits : list hit) (len : Z) : Q :=
  match get_quality menv hits len with
  | Ok q => q
  | Raise _ => 0%Q
  end.

(** Lines 77-93: the body of the loop over the neighbors. *)
Definition minimap_score (walk : list node) (neighbor : node)
  : result (list minimap_event * (node * Q)) :=
  let tr := node_tr walk neighbor in
  sequence ← translate_nodes_into_sequence2 env tr;
  let sequence := clip sequence in
  let name := fasta_name tr in
  _ ← open_fasta menv ("concat_reads/" +:+ name);
  let hits := aligner_map env sequence in
  let quality_score := quality_or_zero hits (Z.of_nat (length sequence)) in
  Ok ([Print_neighbor neighbor;
       Write_fasta ("concat_reads/" +:+ name) (">" +:+ name)
         (concat (replicate 10 sequence));
       Print_quality quality_score],
      (neighbor, quality_score)).

(** The list [scores] after the loop, with what was printed and written. *)
Definition minimap_scores (walk ns : list node)
  : result (list minimap_event * list (node * Q)) :=
  for_each ns
    (fun acc neighbor =>
       r ← minimap_score walk neighbor;
       Ok (acc.1 ++ r.1, acc.2 ++ [r.2]))
    ([], []).

Definition get_minimap_best (current : node) (neighbors : adjacency)
    (walk : list node) : result (list minimap_event * node) :=
  match neighbors !! current with
  | None => Raise (KeyError current)
  | Some ns =>
      r ← minimap_scores walk ns;
      match py_max snd r.2 with
      | Some (best_neighbor, _) => Ok (r.1, best_neighbor)
      | None => Raise ValueError
      end
  end.
End Minimap.

(** ** A worked instance

    A small graph with two branches, symbolic losses, an edit distance in
    the role of edlib and a table of scores in the role of the model. *)

Module Example.
(** Losses kept as expressions, so that the target of each cross-entropy
    and the shape of each sum can be read off. *)
Inductive loss_expr :=
  | CrossEntropy (scores : list Z) (target : nat)
  | Plus (a b : loss_expr).

(** The value of a loss expression: for scores [x] and target [t], the
    cross-entropy is [ln (Σ exp x_i) - x_t]. *)
Definition cross_entropy (scores : list Z) (target : nat) : R :=
  (ln (fold_right Rplus 0 (map (fun x => exp (IZR x)) scores))
   - IZR (nth target scores 0%Z))%R.

Fixpoint loss_value (l : loss_expr) : R :=
  match l with
  | CrossEntropy scores target => cross_entropy scores target
  | Plus a b => (loss_value a + loss_value b)%R
  end.

Definition dna (s : string) : sequence := String.list_ascii_of_string s.

(** Edit distance, one row of the table at a time. *)
Fixpoint lev_row (x : Ascii.ascii) (b : sequence) (diag : nat)
    (above : list nat) (left : nat) : list nat :=
  match b, above with
  | y :: b', up :: above' =>
      let v := Nat.min (Nat.min (S up) (S left))
                 (if Ascii.eqb x y then diag else S diag) in
      v :: lev_row x b' up above' v
  | _, _ => []
  end.

Definition lev_step (b : sequence) (row : list nat) (x : Ascii.ascii)
  : list nat :=
  match row with
  | [] => []
  | d :: above => S d :: lev_row x b d above (S d)
  end.

Definition levenshtein (a b : sequence) : nat :=
  List.last (fold_left (lev_step b) a (seq 0 (S (length b)))) 0%nat.

Definition ex_reads : gmap Z sequence :=
  list_to_map
    [(0, dna "ACGT"); (2, dna "GTAC"); (4, dna "GTTT"); (6, dna "TTAA");
     (8, dna "AACC"); (10, dna "CCGG"); (12, dna "GGAT"); (14, dna "ATAT");
     (16, dna "ATCC"); (18, dna "CCAA"); (20, dna "AATT")].

(** Every read anchors at the origin; the read of node 12 on the reverse
    strand, all others on the forward strand. *)
Definition ex_aligner (s : sequence) : list hit :=
  if decide (s = dna "GGAT")
  then [ {| r_st := 0; r_en := 4; strand := -1 |} ]
  else [ {| r_st := 0; r_en := 4; strand := 1 |} ].

Definition ex_env : oracle_env :=
  {| reads := ex_reads;
     aligner_map := ex_aligner;
     translate_nodes_into_sequence2 := fun nodes =>
       Ok (concat (map (fun n => default [] (ex_reads !! n)) nodes));
     reverse_complement := @rev Ascii.ascii;
     prefix_length := fun _ _ => Ok 2;
     reference_seq := dna "ACGTTTTTAAAACCCCGGGGATAT";
     editDistance := fun q t => Z.of_nat (levenshtein q t) |}.

(** The same, with the read of node 0 on the reverse strand: at node 0
    no candidate passes the strand filter. *)
Definition opposite_env : oracle_env :=
  {| reads := ex_reads;
     aligner_map := fun s =>
       if decide (s = dna "ACGT")
       then [ {| r_st := 0; r_en := 4; strand := -1 |} ]
       else [ {| r_st := 0; r_en := 4; strand := 1 |} ];
     translate_nodes_into_sequence2 :=
       translate_nodes_into_sequence2 ex_env;
     reverse_complement := reverse_complement ex_env;
     prefix_length := prefix_length ex_env;
     reference_seq := reference_seq ex_env;
     editDistance := editDistance ex_env |}.

(** Branches at 0 and at 8. *)
Definition ex_neighbors : adjacency :=
  list_to_map
    [(0, [2; 4]); (2, [6]); (4, [6]); (6, [8]); (8, [10; 12]); (10, [14]);
     (12, [14]); (14, [16]); (16, [18]); (18, [20]); (20, [])].

(** A chain without branches. *)
Definition chain_neighbors : adjacency :=
  list_to_map [(0, [2]); (2, [4]); (4, [])].

(** A chain whose second node has no entry. *)
Definition broken_neighbors : adjacency :=
  list_to_map [(0, [2])].

(** Every id but 0 has a predecessor entry. *)
Definition ex_pred : adjacency :=
  list_to_map ((fun i => (Z.of_nat i, [])) <$> seq 1 21).

(** Every id has one. *)
Definition full_pred : adjacency :=
  list_to_map ((fun i => (Z.of_nat i, [])) <$> seq 0 22).

(** The model prefers 2 to 4 and 10 to 12. *)
Definition ex_scores : list Z :=
  [0; 0; 3; 0; 1; 0; 0; 0; 0; 0; 5; 0; 2; 0; 0; 0; 0; 0; 0; 0; 0; 0].

(** The latent state counts the forward passes, the weights count the
    optimizer steps. *)
Definition ex_model (k : model_kind) : @learner Z loss_expr nat nat :=
  {| kind := k;
     zeros := 0%nat;
     embed := fun _ lat => S lat;
     classify := fun _ _ => ex_scores;
     forward := fun _ lat => (ex_scores, S lat);
     score_ltb := Z.ltb;
     criterion := CrossEntropy;
     loss_add := Plus;
     optimizer_update := fun w _ => S w |}.

(** The state on entry to the loop, for each model, started at node 0
    with fresh weights. *)
Definition ex_start (k : model_kind) : @state Z loss_expr nat nat :=
  initial_state (ex_model k) 0%nat 0.

(** The walk over the chain under the graph-embedding model in training
    mode, and the call it belongs to. *)
Definition chain_loop : @run Z loss_expr nat nat :=
  loop (ex_model GCNModel) ex_env 7 chain_neighbors "train" 4
    (ex_start GCNModel).

Definition chain_call : option (@outcome Z loss_expr nat) :=
  process (ex_model GCNModel) ex_env 7 chain_neighbors "train" 0%nat 22
    ex_pred.

(** The walk over the branching graph. *)
Definition ex_loop (k : model_kind) (mode : string)
  : @run Z loss_expr nat nat :=
  loop (ex_model k) ex_env 7 ex_neighbors mode 12 (ex_start k).

Definition ex_call (k : model_kind) (mode : string)
  : option (@outcome Z loss_expr nat) :=
  process (ex_model k) ex_env 7 ex_neighbors mode 0%nat 22 ex_pred.

Definition finished (r : @run Z loss_expr nat nat)
  : option (@state Z loss_expr nat nat) :=
  match r with
  | Finished s => Some s
  | _ => None
  end.

(** Where that walk ends, and where its first pass leaves it. *)
Definition ex_end (k : model_kind) : @state Z loss_expr nat nat :=
  default (ex_start k) (finished (ex_loop k "train")).

Definition ex_after_first : @state Z loss_expr nat nat :=
  flow_state (step (ex_model SequentialModel) ex_env 7 ex_neighbors "train"
                (ex_start SequentialModel)).

(** The walk over the chain under the sequential model. *)
Definition chain_end : @state Z loss_expr nat nat :=
  default (ex_start SequentialModel)
    (finished (loop (ex_model SequentialModel) ex_env 7 chain_neighbors
                 "train" 4 (ex_start SequentialModel))).

(** Two leaves right behind a branch: no walk of four hops from 0. *)
Definition short_neighbors : adjacency :=
  list_to_map [(0, [2; 4]); (2, []); (4, [])].

(** A branch whose lookahead meets node 6, which has no entry. *)
Definition lookahead_neighbors : adjacency :=
  list_to_map [(0, [2; 4]); (2, [6]); (4, [6])].

(** An oracle for which every composite sequence is empty. *)
Definition empty_env : oracle_env :=
  {| reads := ex_reads;
     aligner_map := ex_aligner;
     translate_nodes_into_sequence2 := fun _ => Ok [];
     reverse_complement := reverse_complement ex_env;
     prefix_length := prefix_length ex_env;
     reference_seq := reference_seq ex_env;
     editDistance := editDistance ex_env |}.

(** An aligner whose one hit ends after as many positions as the
    sequence has letters A, and a quality that is that number, but
    cannot be computed beyond 4. *)
Definition count_A (s : sequence) : Z :=
  Z.of_nat (length (filter (fun c => c = Ascii.ascii_of_nat 65) s)).

Definition minimap_oracle : oracle_env :=
  {| reads := ex_reads;
     aligner_map := fun s =>
       [ {| r_st := 0; r_en := count_A s; strand := 1 |} ];
     translate_nodes_into_sequence2 :=
       translate_nodes_into_sequence2 ex_env;
     reverse_complement := reverse_complement ex_env;
     prefix_length := prefix_length ex_env;
     reference_seq := reference_seq ex_env;
     editDistance := editDistance ex_env |}.

Definition ex_menv : minimap_env :=
  {| get_quality := fun hits _ =>
       match hits with
       | [] => Raise IndexError
       | h :: _ =>
           if 4 <? r_en h then Raise ZeroDivisionError
           else Ok (inject_Z (r_en h))
       end;
     open_fasta := fun _ => Ok () |}.

(** The edge table of the chain, for [get_overlap_length]. *)
Definition ex_find_edge_index (a b : node) : result Z :=
  if decide (b = a + 2) then Ok (a / 2) else Raise IndexError.

Definition ex_graph_prefix_length (edge : Z) : result Z :=
  index [2; 3; 1] (Z.to_nat edge).

(** Where eight passes over the branching graph lead. *)
Definition ex_after_eight (k : model_kind) (mode : string)
  : @state Z loss_expr nat nat :=
  default (ex_start k)
    (passes (ex_model k) ex_env 7 ex_neighbors mode 8 (ex_start k)).
End Example.

(** * Properties *)

(** ** Sequencing and loops *)

Lemma bind_Ok {A B} (r : result A) (k : A → result B) (b : B) :
  (x ← r; k x) = Ok b → ∃ a, r = Ok a ∧ k a = Ok b.
Proof. destruct r as [a|e]; simpl; [eauto | discriminate]. Qed.

Ltac inv_bind H :=
  let a := fresh "a" in
  let Ha := fresh "Hbind" in
  apply bind_Ok in H as (a & Ha & H).

Lemma for_each_inv {A S} (P : S → Prop) (xs : list A)
    (body : S → A → result S) (acc r : S) :
  P acc →
  (∀ a x a', x ∈ xs → P a → body a x = Ok a' → P a') →
  for_each xs body acc = Ok r → P r.
Proof.
  revert acc. induction xs as [|x xs IH]; simpl; intros acc Hacc Hbody Hrun.
  - by injection Hrun as <-.
  - inv_bind Hrun. apply (IH a); [|intros; eapply Hbody; eauto; by right|done].
    eapply Hbody; eauto. by left.
Qed.

Section Paths.
Variable neighbors : adjacency.

Lemma get_paths_succ d start paths :
  get_paths neighbors (S d) start = Ok paths →
  ∃ ns, neighbors !! start = Some ns ∧
    ∀ p, p ∈ paths →
      ∃ n q sub, n ∈ ns ∧ get_paths neighbors d n = Ok sub ∧ q ∈ sub ∧
                 p = q ++ [start].
Proof.
  simpl. destruct (neighbors !! start) as [ns|]; [|discriminate].
  intros Hrun. exists ns. split; [done|].
  revert Hrun.
  apply (for_each_inv (fun acc : list (list node) => ∀ p, p ∈ acc →
           ∃ n q sub, n ∈ ns ∧ get_paths neighbors d n = Ok sub ∧
                      q ∈ sub ∧ p = q ++ [start])).
  - intros p Hp. by apply elem_of_nil in Hp.
  - intros a n a' Hn IH Hbody p Hp. inv_bind Hbody.
    injection Hbody as <-. apply elem_of_app in Hp as [Hp|Hp]; [by apply IH|].
    apply list_elem_of_fmap in Hp as (q & -> & Hq). by exists n, q, a0.
Qed.

Lemma get_paths_length_aux d : ∀ start paths,
  get_paths neighbors d start = Ok paths →
  Forall (fun p => length p = S d) paths.
Proof.
  induction d as [|d IH]; intros start paths Hrun.
  - injection Hrun as <-. by repeat constructor.
  - apply get_paths_succ in Hrun as (ns & _ & Hps).
    apply Forall_forall. intros p Hp.
    destruct (Hps p Hp) as (n & q & sub & _ & Hsub & Hq & ->).
    rewrite length_app. simpl.
    pose proof (IH _ _ Hsub) as Hall. rewrite Forall_forall in Hall.
    rewrite (Hall q Hq). lia.
Qed.

Lemma get_paths_last d start paths p :
  get_paths neighbors d start = Ok paths → p ∈ paths →
  ∃ q, p = q ++ [start].
Proof.
  destruct d as [|d]; intros Hrun Hp.
  - injection Hrun as <-. apply list_elem_of_singleton in Hp as ->. by exists [].
  - apply get_paths_succ in Hrun as (ns & _ & Hps).
    destruct (Hps p Hp) as (n & q & sub & _ & _ & _ & ->). by exists q.
Qed.
End Paths.
(** ** Division and minimum *)

Lemma true_div_Ok a b q :
  true_div a b = Ok q → b ≠ 0 ∧ q = Qdiv (inject_Z a) (inject_Z b).
Proof.
  unfold true_div. destruct (Z.eqb_spec b 0); [discriminate|].
  intros [= <-]. done.
Qed.

Lemma true_div_nonneg a b q :
  0 ≤ a → 0 ≤ b → true_div a b = Ok q → Qle 0 q.
Proof.
  intros Ha Hb Hdiv. apply true_div_Ok in Hdiv as [Hne ->].
  apply Qle_shift_div_l.
  - change 0%Q with (inject_Z 0). rewrite <- Zlt_Qlt. lia.
  - rewrite Qmult_0_l. change 0%Q with (inject_Z 0). rewrite <- Zle_Qle. lia.
Qed.

Lemma Qlt_bool_false a b : Qlt_bool a b = false → Qle b a.
Proof.
  unfold Qlt_bool. intros H. apply negb_false_iff in H.
  by apply Qle_bool_iff.
Qed.

Lemma Qlt_bool_true a b : Qlt_bool a b = true → Qle a b.
Proof.
  unfold Qlt_bool. intros H. apply negb_true_iff in H.
  apply Qlt_le_weak, Qnot_le_lt. intros Hle.
  apply Qle_bool_iff in Hle. congruence.
Qed.

Lemma min_from_spec {A} (key : A → Q) (xs : list A) : ∀ best,
  min_from key best xs ∈ best :: xs ∧
  ∀ y, y ∈ best :: xs → Qle (key (min_from key best xs)) (key y).
Proof.
  induction xs as [|x xs IH]; intros best; simpl.
  - split; [by left|]. intros y Hy. apply list_elem_of_singleton in Hy as ->.
    apply Qle_refl.
  - destruct (Qlt_bool (key x) (key best)) eqn:Hlt.
    + destruct (IH x) as [Hin Hmin]. split; [by right|].
      intros y Hy. apply elem_of_cons in Hy as [->|Hy]; [|by apply Hmin].
      eapply Qle_trans; [apply Hmin; by left|]. by apply Qlt_bool_true.
    + destruct (IH best) as [Hin Hmin]. split.
      * apply elem_of_cons in Hin as [->|Hin]; [by left|]. by do 2 right.
      * intros y Hy. apply elem_of_cons in Hy as [->|Hy]; [apply Hmin; by left|].
        apply elem_of_cons in Hy as [->|Hy]; [|apply Hmin; by right].
        eapply Qle_trans; [apply Hmin; by left|]. by apply Qlt_bool_false.
Qed.

Lemma py_min_spec {A} (key : A → Q) (xs : list A) (m : A) :
  py_min key xs = Some m → m ∈ xs ∧ ∀ y, y ∈ xs → Qle (key m) (key y).
Proof.
  destruct xs as [|x xs]; [discriminate|]. intros [= <-]. apply min_from_spec.
Qed.

Lemma py_min_None {A} (key : A → Q) (xs : list A) :
  py_min key xs = None ↔ xs = [].
Proof. by destruct xs. Qed.
(** ** The alignment oracle *)

Section OracleFacts.
Variable env : oracle_env.

Lemma index_Ok {A} (l : list A) i x : index l i = Ok x ↔ l !! i = Some x.
Proof. unfold index. destruct (l !! i); split; congruence. Qed.

(** A scored path is the path itself, and it passed the strand filter. *)
Lemma score_path_Some ref_start strand path d :
  score_path env ref_start strand path = Ok (Some d) →
  d.1 = path ∧ same_strand env strand path = true.
Proof.
  unfold score_path, same_strand. intros H.
  inv_bind H. rewrite Hbind. simpl.
  inv_bind H. rewrite Hbind0. destruct a0 as [[? ?] next_strand].
  destruct (next_strand =? strand); simpl in *; [|discriminate].
  do 4 inv_bind H. by injection H as <-.
Qed.

Lemma score_path_None ref_start strand path :
  score_path env ref_start strand path = Ok None →
  same_strand env strand path = false.
Proof.
  unfold score_path, same_strand. intros H.
  inv_bind H. rewrite Hbind. simpl.
  inv_bind H. rewrite Hbind0. destruct a0 as [[? ?] next_strand].
  destruct (next_strand =? strand); simpl in *; [|done].
  do 4 inv_bind H. discriminate.
Qed.

Lemma edlib_distances_acc ref_start strand paths : ∀ acc distances,
  for_each paths
    (fun distances path =>
       r ← score_path env ref_start strand path;
       Ok (match r with
           | Some d => distances ++ [d]
           | None => distances
           end)) acc = Ok distances →
  ∃ new, distances = acc ++ new ∧
    new.*1 = filter (fun p => same_strand env strand p = true) paths ∧
    ∀ d, d ∈ new → score_path env ref_start strand d.1 = Ok (Some d).
Proof.
  induction paths as [|path paths IH]; simpl; intros acc distances Hrun.
  - injection Hrun as <-. exists []. rewrite app_nil_r. split_and!; [done..|].
    intros d Hd. by apply elem_of_nil in Hd.
  - inv_bind Hrun. inv_bind Hbind. injection Hbind as <-.
    apply IH in Hrun as (new & -> & Hfst & Hall).
    destruct a0 as [d|].
    + pose proof (score_path_Some _ _ _ _ Hbind0) as [Hd Hsame].
      exists (d :: new). rewrite <- app_assoc. split_and!; [done|..].
      * rewrite filter_cons_True by done. rewrite fmap_cons. by rewrite Hfst, Hd.
      * intros d' Hd'. apply elem_of_cons in Hd' as [->|Hd']; [|by apply Hall].
        by rewrite Hd.
    + pose proof (score_path_None _ _ _ Hbind0) as Hsame.
      exists new. split_and!; [done| |done].
      rewrite filter_cons_False; [done|]. by rewrite Hsame.
Qed.

(** The paths of [distances] are the candidates that pass the strand
    filter, in order, each with the score of [score_path]. *)
Lemma edlib_distances_spec ref_start strand paths distances :
  edlib_distances env ref_start strand paths = Ok distances →
  distances.*1 = filter (fun p => same_strand env strand p = true) paths ∧
  ∀ d, d ∈ distances → score_path env ref_start strand d.1 = Ok (Some d).
Proof.
  intros H. apply edlib_distances_acc in H as (new & -> & ? & ?). done.
Qed.

(** Every candidate starts at the current node, continues with one of
    its neighbors and has five nodes. *)
Lemma candidate_paths_shape neighbors current paths path :
  candidate_paths neighbors current = Ok paths → path ∈ paths →
  ∃ ns n rest, neighbors !! current = Some ns ∧ n ∈ ns ∧
               path = current :: n :: rest ∧ length path = 5%nat.
Proof.
  unfold candidate_paths. intros H Hin. inv_bind H. injection H as <-.
  apply list_elem_of_fmap in Hin as (p & -> & Hp).
  pose proof (get_paths_length_aux _ _ _ _ Hbind) as Hlen.
  rewrite Forall_forall in Hlen. specialize (Hlen p Hp).
  apply get_paths_succ in Hbind as (ns & Hns & Hps).
  destruct (Hps p Hp) as (n & q & sub & Hn & Hsub & Hq & ->).
  destruct (get_paths_last _ _ _ _ _ Hsub Hq) as (q' & ->).
  exists ns, n, (rev q'). split_and!; [done..| |by rewrite length_rev].
  by rewrite !rev_app_distr.
Qed.

(** The score of a surviving candidate is the edit distance of its
    composite sequence over the length of that sequence, the width of
    the reference window. *)
Lemma score_path_inv ref_start strand path d :
  score_path env ref_start strand path = Ok (Some d) →
  ∃ query sequence,
    sequence ≠ [] ∧
    d.2 = Qdiv (inject_Z (editDistance env query sequence))
               (inject_Z (Z.of_nat (length sequence))).
Proof.
  intros H. unfold score_path in H.
  inv_bind H. inv_bind H. destruct a0 as [[? ?] next_strand].
  destruct (next_strand =? strand); simpl in *; [|discriminate].
  do 4 inv_bind H. injection H as <-. simpl.
  apply true_div_Ok in Hbind4 as [Hne ->].
  eexists _, (if strand =? -1 then reverse_complement env a0 else a0).
  split.
  - intros Hnil. rewrite Hnil in Hne. simpl in Hne. lia.
  - f_equal. f_equal. lia.
Qed.

(** The score of a surviving candidate. *)
Lemma score_path_nonneg ref_start strand path d :
  (∀ q t, 0 ≤ editDistance env q t) →
  score_path env ref_start strand path = Ok (Some d) → Qle 0 d.2.
Proof.
  intros Hedit H. unfold score_path in H.
  inv_bind H. inv_bind H. destruct a0 as [[? ?] next_strand].
  destruct (next_strand =? strand); simpl in *; [|discriminate].
  do 4 inv_bind H. injection H as <-. simpl.
  eapply true_div_nonneg; [apply Hedit| |exact Hbind4]. lia.
Qed.
End OracleFacts.

Section OracleResult.
Variable env : oracle_env.

(** What an answer of the oracle says about the run that produced it. *)
Lemma get_edlib_best_inv idx current neighbors diag r :
  get_edlib_best env idx current neighbors = Ok (diag, r) →
  ∃ ref_start r_en strand paths distances,
    anchor env current = Ok (ref_start, r_en, strand) ∧
    candidate_paths neighbors current = Ok paths ∧
    edlib_distances env ref_start strand paths = Ok distances ∧
    match r with
    | Some b =>
        diag = [] ∧
        ∃ best score, py_min snd distances = Some (best, score) ∧
                      best !! 1%nat = Some b
    | None =>
        distances = [] ∧
        diag = [AllOppositeStrand; GraphIndex idx; CurrentNode current;
                CandidatePaths paths]
    end.
Proof.
  unfold get_edlib_best. intros H.
  inv_bind H. destruct a as [[ref_start r_en] strand].
  inv_bind H. inv_bind H.
  exists ref_start, r_en, strand, a, a0. split_and!; [done..|].
  destruct (py_min snd a0) as [[best score]|] eqn:Hmin.
  - inv_bind H. injection H as <- <-. split; [done|].
    exists best, score. split; [done|]. by apply index_Ok.
  - injection H as <- <-. split; [|done]. by apply py_min_None in Hmin.
Qed.

(** The oracle's answer from the list of scored candidates. *)
Lemma get_edlib_best_spec idx current neighbors ref_start r_en strand
    paths distances :
  anchor env current = Ok (ref_start, r_en, strand) →
  candidate_paths neighbors current = Ok paths →
  edlib_distances env ref_start strand paths = Ok distances →
  match py_min snd distances with
  | None =>
      get_edlib_best env idx current neighbors =
        Ok ([AllOppositeStrand; GraphIndex idx; CurrentNode current;
             CandidatePaths paths], None)
  | Some (best, score) =>
      ∃ b, best !! 1%nat = Some b ∧
           get_edlib_best env idx current neighbors = Ok ([], Some b)
  end.
Proof.
  intros Hanchor Hpaths Hdist. unfold get_edlib_best.
  rewrite Hanchor. simpl. rewrite Hpaths. simpl. rewrite Hdist. simpl.
  destruct (py_min snd distances) as [[best score]|] eqn:Hmin; [|done].
  apply py_min_spec in Hmin as [Hin _].
  apply edlib_distances_spec in Hdist as [Hfst _].
  assert (best ∈ paths) as Hbest.
  { assert (best ∈ distances.*1) as Hb
      by (apply list_elem_of_fmap; by exists (best, score)).
    rewrite Hfst in Hb. by apply list_elem_of_filter in Hb as [_ ?]. }
  destruct (candidate_paths_shape _ _ _ _ Hpaths Hbest)
    as (ns & n & rest & _ & _ & -> & _).
  exists n. by split.
Qed.

(** The node the oracle answers with is a neighbor of the current node. *)
Lemma get_edlib_best_neighbor idx current neighbors diag b :
  get_edlib_best env idx current neighbors = Ok (diag, Some b) →
  ∃ ns, neighbors !! current = Some ns ∧ b ∈ ns.
Proof.
  intros H. apply get_edlib_best_inv in H
    as (ref_start & r_en & strand & paths & distances & _ & Hpaths & Hdist
        & _ & best & score & Hmin & Hb).
  apply py_min_spec in Hmin as [Hin _].
  apply edlib_distances_spec in Hdist as [Hfst _].
  assert (best ∈ paths) as Hbest.
  { assert (best ∈ distances.*1) as Hb'
      by (apply list_elem_of_fmap; by exists (best, score)).
    rewrite Hfst in Hb'. by apply list_elem_of_filter in Hb' as [_ ?]. }
  destruct (candidate_paths_shape _ _ _ _ Hpaths Hbest)
    as (ns & n & rest & Hns & Hn & -> & _).
  injection Hb as <-. by exists ns.
Qed.
End OracleResult.

(** ** The walk decoder: one pass through the loop body *)

(** In the sections below the names of the decoder's functions stand for
    their instances at the section's model and graph; these tactics unfold
    the functions themselves. *)
Ltac unfold_sequential_update := unfold sequential_update.
Ltac unfold_branch := unfold branch.
Ltac unfold_step := unfold step.
Ltac unfold_bookkeeping := unfold bookkeeping.
Ltac unfold_after_loop := unfold after_loop.
Ltac unfold_process := unfold process, process_bounded.

Lemma complement_involutive n : complement (complement n) = n.
Proof.
  unfold complement.
  by rewrite Z.lxor_assoc, Z.lxor_nilpotent, Z.lxor_0_r.
Qed.

Section DecoderFacts.
Context {Score Loss Latent Weights : Type}.
Variable model : @learner Score Loss Latent Weights.
Variable env : oracle_env.
Variable idx : Z.
Variable neighbors : adjacency.
Variable mode : string.

Local Abbreviation state := (@state Score Loss Latent Weights).
Local Abbreviation step := (step model env idx neighbors mode).
Local Abbreviation branch := (branch model env idx neighbors mode).
Local Abbreviation loop := (loop model env idx neighbors mode).
Local Abbreviation passes := (passes model env idx neighbors mode).
Local Abbreviation after_loop := (after_loop model mode).
Local Abbreviation sequential_update := (sequential_update model mode).
Local Abbreviation bookkeeping := (bookkeeping model mode).

(** The model call changes the scores, the latent state and the trace
    only. *)
Lemma run_model_frame (s : state) :
  let s' := run_model model s in
  current s' = current s ∧ visited s' = visited s ∧ walk s' = walk s ∧
  loss_list s' = loss_list s ∧ total_loss s' = total_loss s ∧
  total s' = total s ∧ correct s' = correct s ∧ weights s' = weights s.
Proof.
  unfold run_model. case_decide; [|done].
  by destruct (forward model (weights s) (last_latent s)).
Qed.

Lemma run_model_output (s : state) :
  ∃ evs, output (run_model model s) = output s ++ evs ∧
         optimizer_events evs = [].
Proof.
  unfold run_model. case_decide.
  - destruct (forward model (weights s) (last_latent s)). by exists [Model_forward].
  - exists []. by rewrite app_nil_r.
Qed.

Lemma sequential_update_frame loss (s : state) :
  let s' := sequential_update loss s in
  current s' = current s ∧ visited s' = visited s ∧ walk s' = walk s ∧
  loss_list s' = loss_list s ∧ total_loss s' = total_loss s ∧
  total s' = total s ∧ correct s' = correct s.
Proof. unfold_sequential_update. by case_match. Qed.

(** The three ways a branch pass can go, once the model and the oracle
    have answered. *)
Lemma branch_cases ns (s : state) :
  let s1 := run_model model s in
  (∃ e, branch ns s = Abort e s1) ∨
  (∃ actions i choice diag,
      model_choice model ns s1 = Ok (actions, i, choice) ∧
      get_edlib_best env idx (current s) neighbors = Ok (diag, None) ∧
      branch ns s =
        Break (emit (map Print_oracle diag ++
                     [Print_prediction (previous (walk s)) (current s) ns
                        actions choice None]) s1)) ∨
  (∃ actions i choice best,
      model_choice model ns s1 = Ok (actions, i, choice) ∧
      get_edlib_best env idx (current s) neighbors = Ok ([], Some best) ∧
      branch ns s =
        Continue (sequential_update (criterion model actions i)
                    (record_branch model (criterion model actions i)
                       choice best
                       (emit [Print_prediction (previous (walk s))
                                (current s) ns actions choice (Some best)]
                          s1)))).
Proof.
  intros s1. unfold_branch. fold s1.
  destruct (run_model_frame s) as (Hcur & _ & Hwalk & _). fold s1 in Hcur, Hwalk.
  rewrite Hcur, Hwalk.
  destruct (model_choice model ns s1) as [[[actions i] choice]|e];
    [|left; by eexists].
  destruct (get_edlib_best env idx (current s) neighbors)
    as [[diag [best|]]|e] eqn:Horacle; [| |left; by eexists].
  - right; right. exists actions, i, choice, best.
    assert (diag = []) as ->.
    { by apply get_edlib_best_inv in Horacle as (? & ? & ? & ? & ? & _ & _ & _ & -> & _). }
    done.
  - right; left. by exists actions, i, choice, diag.
Qed.

(** The loop body, case by case. *)
Lemma step_cases (s : state) :
  let s0 := append_walk s in
  let s1 := mark_visited s0 in
  ((current s ∈ visited s) ∧ step s = Break s0) ∨
  ((current s ∉ visited s) ∧
   match neighbors !! current s with
   | None => step s = Abort (KeyError (current s))
                        (emit [Print_node (current s)] s1)
   | Some [] => step s = Break s1
   | Some [n] => step s = Continue (set_current n s1)
   | Some ns => step s = branch ns s1
   end).
Proof.
  intros s0 s1. unfold_step. simpl.
  destruct (decide (current s ∈ visited s)) as [Hin|Hout]; [by left|right].
  split; [done|]. by destruct (neighbors !! current s) as [[|n [|n' ns]]|].
Qed.

(** A pass that continues has marked the node it stood on, and moves to
    one of that node's neighbors. *)
Lemma step_Continue_inv (s s' : state) :
  step s = Continue s' →
  (current s ∉ visited s) ∧
  visited s' = visited s ∪ {[current s]} ∪ {[complement (current s)]} ∧
  walk s' = walk s ++ [current s] ∧
  ∃ ns, neighbors !! current s = Some ns ∧ current s' ∈ ns.
Proof.
  intros Hstep. destruct (step_cases s) as [[_ H]|[Hout H]]; [congruence|].
  split; [done|].
  destruct (neighbors !! current s) as [[|n [|n' ns]]|] eqn:Hns;
    rewrite H in Hstep; try discriminate.
  - injection Hstep as <-. simpl. split_and!; [done..|].
    exists [n]. split; [done|]. by left.
  - clear H.
    destruct (branch_cases (n :: n' :: ns) (mark_visited (append_walk s)))
      as [[e H]|[(? & ? & ? & ? & _ & _ & H)|(a & i & c & b & _ & Ho & H)]];
      rewrite H in Hstep; try discriminate.
    injection Hstep as <-.
    match goal with
    | |- context [sequential_update ?l ?t] =>
        destruct (sequential_update_frame l t) as (-> & -> & -> & _)
    end.
    destruct (run_model_frame (mark_visited (append_walk s)))
      as (_ & Hv & Hw & _).
    simpl. rewrite Hv, Hw. simpl. split_and!; [done..|].
    apply get_edlib_best_neighbor in Ho as (ns' & Hns' & Hb).
    simpl in Hns'. rewrite Hns in Hns'. injection Hns' as <-. eauto.
Qed.

(** Whatever a pass does, it marks at most the current node and its
    virtual pair. *)
Lemma step_visited (s : state) :
  visited (flow_state (step s)) = visited s ∨
  visited (flow_state (step s)) =
    visited s ∪ {[current s]} ∪ {[complement (current s)]}.
Proof.
  destruct (step_cases s) as [[_ H]|[Hout H]]; [rewrite H; by left|].
  right.
  destruct (neighbors !! current s) as [[|n [|n' ns]]|] eqn:Hns;
    rewrite H; try done.
  clear H.
  destruct (run_model_frame (mark_visited (append_walk s)))
    as (_ & Hv & _).
  destruct (branch_cases (n :: n' :: ns) (mark_visited (append_walk s)))
    as [[e H]|[(? & ? & ? & ? & _ & _ & H)|(a & i & c & b & _ & Ho & H)]];
    rewrite H; simpl; try by rewrite Hv.
  match goal with
  | |- visited (sequential_update ?l ?t) = _ =>
      destruct (sequential_update_frame l t) as (_ & -> & _)
  end.
  simpl. by rewrite Hv.
Qed.

(** *** Bookkeeping kept by every pass *)

Lemma optimizer_events_app (xs ys : list (@event Score Loss)) :
  optimizer_events (xs ++ ys) = optimizer_events xs ++ optimizer_events ys.
Proof. apply filter_app. Qed.

Lemma bookkeeping_quiet (s s' : state) evs :
  bookkeeping s →
  loss_list s' = loss_list s → total_loss s' = total_loss s →
  total s' = total s → correct s' = correct s →
  output s' = output s ++ evs → optimizer_events evs = [] →
  bookkeeping s'.
Proof.
  intros (? & ? & ? & Hopt) Hl Ht Hn Hc Ho Hq. unfold_bookkeeping.
  rewrite Hl, Ht, Hn, Hc, Ho, optimizer_events_app, Hq, app_nil_r. done.
Qed.

Lemma step_bookkeeping (s : state) :
  bookkeeping s → bookkeeping (flow_state (step s)).
Proof.
  intros Hs.
  assert (bookkeeping (append_walk s)) as Hs0
    by (by eapply (bookkeeping_quiet s _ []); rewrite ?app_nil_r).
  assert (bookkeeping (mark_visited (append_walk s))) as Hs1
    by (by eapply (bookkeeping_quiet s _ []); rewrite ?app_nil_r).
  destruct (step_cases s) as [[_ H]|[Hout H]]; [by rewrite H|].
  destruct (neighbors !! current s) as [[|n [|n' ns]]|] eqn:Hns;
    rewrite H; simpl; clear H.
  - done.
  - by eapply (bookkeeping_quiet s _ []); rewrite ?app_nil_r.
  - set (s1 := mark_visited (append_walk s)) in *.
    destruct (run_model_frame s1) as (_ & _ & _ & Hl & Ht & Hn & Hc & _).
    destruct (run_model_output s1) as (evs & Hevs & Hq).
    assert (bookkeeping (run_model model s1)) as Hs2
      by (by eapply (bookkeeping_quiet s1 _ evs)).
    destruct (branch_cases (n :: n' :: ns) s1)
      as [[e H]|[(? & ? & ? & diag & _ & _ & H)|(a & i & c & b & _ & _ & H)]];
      rewrite H; simpl; clear H.
    + done.
    + eapply (bookkeeping_quiet (run_model model s1)); try done.
      rewrite optimizer_events_app.
      assert (optimizer_events (map (@Print_oracle Score Loss) diag) = [])
        as -> by (by induction diag).
      done.
    + destruct Hs2 as (Hn2 & Ht2 & Hc2 & Ho2).
      unfold_sequential_update. unfold_bookkeeping.
      destruct (bool_decide (kind model = SequentialModel) && training mode);
        simpl; rewrite ?Hn2, ?Ht2, ?length_app, ?flat_map_app,
                 ?optimizer_events_app, ?Ho2; simpl;
        rewrite ?app_nil_r; (split_and!; [lia| |case_decide; lia|done]);
        unfold sum_losses; by rewrite fold_left_app.
  - by eapply (bookkeeping_quiet s _ [Print_node (current s)]).
Qed.

(** *** The loop as a whole *)

Lemma loop_passes k : ∀ (s s' : state) fuel,
  passes k s = Some s' → loop (k + fuel) s = loop fuel s'.
Proof.
  induction k as [|k IH]; simpl; intros s s' fuel H.
  - by injection H as <-.
  - destruct (step s); try discriminate. by apply IH.
Qed.

(** More fuel does not change a run that has ended. *)
Lemma loop_fuel_mono fuel : ∀ (s : state) fuel',
  ¬ exhausted (loop fuel s) → (fuel ≤ fuel')%nat →
  loop fuel' s = loop fuel s.
Proof.
  induction fuel as [|fuel IH]; simpl; intros s fuel' Hend Hle.
  - by destruct Hend.
  - destruct fuel' as [|fuel']; [lia|]. simpl.
    destruct (step s); try done. apply IH; [done|lia].
Qed.

Lemma loop_bookkeeping fuel : ∀ (s : state),
  bookkeeping s →
  match loop fuel s with
  | Finished s' | Raised _ s' | Exhausted s' => bookkeeping s'
  end.
Proof.
  induction fuel as [|fuel IH]; simpl; intros s Hs; [done|].
  pose proof (step_bookkeeping s Hs) as Hstep.
  destruct (step s); simpl in Hstep; try done. by apply IH.
Qed.

Lemma passes_bookkeeping k : ∀ (s s' : state),
  bookkeeping s → passes k s = Some s' → bookkeeping s'.
Proof.
  induction k as [|k IH]; simpl; intros s s' Hs H.
  - by injection H as <-.
  - pose proof (step_bookkeeping s Hs) as Hstep.
    destruct (step s); simpl in Hstep; try discriminate. by eapply IH.
Qed.

Lemma initial_state_bookkeeping w start :
  bookkeeping (initial_state model w start).
Proof.
  unfold initial_state. unfold_bookkeeping. case_decide; simpl.
  - split_and!; [done..|]. by case_match.
  - split_and!; [done..|]. by case_match.
Qed.

Lemma initial_state_entry w start :
  current (initial_state model w start) = start ∧
  visited (initial_state model w start) = ∅.
Proof. unfold initial_state. by case_decide. Qed.

(** *** Termination *)

Lemma walkable_neighbor start k ns n :
  neighbors !! k = Some ns → n ∈ ns → n ∈ walkable neighbors start.
Proof.
  intros Hk Hn. unfold walkable. apply elem_of_union. right.
  apply elem_of_union_list. exists (list_to_set ns). split.
  - apply list_elem_of_fmap. exists (k, ns). split; [done|].
    by apply elem_of_map_to_list.
  - by apply elem_of_list_to_set.
Qed.

(** Each continuing pass marks a walkable node that was not marked, so
    the loop ends within as many passes as there are such nodes, plus
    the one that breaks. *)
Lemma loop_terminates start fuel : ∀ (s : state),
  current s ∈ walkable neighbors start →
  (size (walkable neighbors start ∖ visited s) < fuel)%nat →
  ¬ exhausted (loop fuel s).
Proof.
  induction fuel as [|fuel IH]; simpl; intros s Hcur Hsize; [lia|].
  destruct (step s) as [s'| |] eqn:Hstep; try tauto.
  apply step_Continue_inv in Hstep as (Hout & Hvis & _ & ns & Hns & Hin).
  apply IH; [by eapply walkable_neighbor|].
  assert (walkable neighbors start ∖ visited s' ⊂
          walkable neighbors start ∖ visited s) as Hsub.
  { rewrite Hvis. apply strict_spec_alt. split.
    - intros x Hx. apply elem_of_difference in Hx as [Hx Hnew].
      apply elem_of_difference. split; [done|]. intros Hold. apply Hnew.
      apply elem_of_union. left. apply elem_of_union. by left.
    - intros Heq.
      assert (current s ∈ walkable neighbors start ∖ visited s) as Hc
        by (by apply elem_of_difference).
      rewrite <- Heq in Hc. apply elem_of_difference in Hc as [_ Hc].
      apply Hc. apply elem_of_union. left. apply elem_of_union. right.
      by apply elem_of_singleton. }
  apply subset_size in Hsub. lia.
Qed.

Lemma loop_enough w start fuel :
  ¬ exhausted (loop fuel (initial_state model w start)) →
  loop (S (size (walkable neighbors start))) (initial_state model w start)
  = loop fuel (initial_state model w start).
Proof.
  intros Hend.
  set (enough := S (size (walkable neighbors start))).
  assert (¬ exhausted (loop enough (initial_state model w start))) as Hf.
  { destruct (initial_state_entry w start) as [Hc Hv].
    apply (loop_terminates start).
    - rewrite Hc. unfold walkable. set_solver.
    - rewrite Hv, difference_empty_L. unfold enough. lia. }
  rewrite <- (loop_fuel_mono enough _ (enough `max` fuel)) by (done || lia).
  apply loop_fuel_mono; [done|lia].
Qed.

Lemma process_finished w num_nodes pred start rest fuel (s : state) :
  start_nodes num_nodes pred = start :: rest →
  loop fuel (initial_state model w start) = Finished s →
  process model env idx neighbors mode w num_nodes pred
  = Some (after_loop s).
Proof.
  intros Hstart Hloop. unfold process, process_bounded. rewrite Hstart.
  rewrite (loop_enough w start fuel); rewrite Hloop; [done|simpl; tauto].
Qed.

Lemma process_raised w num_nodes pred start rest fuel e (s : state) :
  start_nodes num_nodes pred = start :: rest →
  loop fuel (initial_state model w start) = Raised e s →
  process model env idx neighbors mode w num_nodes pred
  = Some {| events := output s; final_weights := weights s;
            returned := Raise e |}.
Proof.
  intros Hstart Hloop. unfold process, process_bounded. rewrite Hstart.
  rewrite (loop_enough w start fuel); rewrite Hloop; [done|simpl; tauto].
Qed.

(** [process] always comes back: with a pair or with an exception. *)
Lemma process_returns w num_nodes pred :
  is_Some (process model env idx neighbors mode w num_nodes pred).
Proof.
  unfold process, process_bounded.
  destruct (start_nodes num_nodes pred) as [|start rest] eqn:Hstart; [done|].
  destruct (initial_state_entry w start) as [Hc Hv].
  pose proof (loop_terminates start (S (size (walkable neighbors start)))
                (initial_state model w start)) as Hend.
  destruct (loop _ _); try done. destruct Hend; [| |done].
  - rewrite Hc. unfold walkable. set_solver.
  - rewrite Hv, difference_empty_L. lia.
Qed.
End DecoderFacts.

Section BranchFacts.
Context {Score Loss Latent Weights : Type}.
Variable model : @learner Score Loss Latent Weights.
Variable env : oracle_env.
Variable idx : Z.
Variable neighbors : adjacency.
Variable mode : string.

Local Abbreviation state := (@state Score Loss Latent Weights).
Local Abbreviation step := (step model env idx neighbors mode).
Local Abbreviation loop := (loop model env idx neighbors mode).
Local Abbreviation sequential_update := (sequential_update model mode).

Lemma model_choice_inv ns (s : state) actions i choice :
  model_choice model ns s = Ok (actions, i, choice) →
  ∃ pa, predict_actions s = Some pa ∧ tensor_gather pa ns = Ok actions ∧
        topk1 model actions = Ok i ∧ ns !! i = Some choice.
Proof.
  unfold model_choice. destruct (predict_actions s) as [pa|]; [|done].
  intros H. do 3 inv_bind H. injection H as <- <- <-.
  exists pa. split_and!; try done. by apply index_Ok.
Qed.

Lemma sum_losses_cons l ls :
  sum_losses model (l :: ls) = Tensor (fold_left (loss_add model) ls l).
Proof.
  unfold sum_losses. simpl. generalize l. clear l.
  induction ls as [|l' ls IH]; intros l; simpl; [done|]. apply IH.
Qed.

(** A branch pass once the model and the oracle have both answered:
    the oracle names a neighbor. *)
Lemma step_branch_Some (s : state) ns actions i choice diag best :
  let s1 := run_model model (mark_visited (append_walk s)) in
  current s ∉ visited s →
  neighbors !! current s = Some ns → (2 ≤ length ns)%nat →
  model_choice model ns s1 = Ok (actions, i, choice) →
  get_edlib_best env idx (current s) neighbors = Ok (diag, Some best) →
  step s =
    Continue
      (sequential_update (criterion model actions i)
         (record_branch model (criterion model actions i) choice best
            (emit [Print_prediction (previous (walk s ++ [current s]))
                     (current s) ns actions choice (Some best)] s1))).
Proof.
  intros s1 Hout Hns Hlen Hchoice Horacle.
  destruct (step_cases model env idx neighbors mode s) as [[? _]|[_ H]];
    [done|].
  rewrite Hns in H. destruct ns as [|n [|n' ns]]; simpl in Hlen; try lia.
  rewrite H.
  destruct (branch_cases model env idx neighbors mode (n :: n' :: ns)
              (mark_visited (append_walk s)))
    as [[e Hb]|[(? & ? & ? & ? & _ & Ho & _)|(a & j & c & b & Hc & Ho & Hb)]].
  - unfold branch in Hb. fold s1 in Hb. rewrite Hchoice in Hb.
    destruct (run_model_frame model (mark_visited (append_walk s)))
      as (Hcur & _). fold s1 in Hcur. simpl in Hcur.
    rewrite Hcur, Horacle in Hb. discriminate.
  - simpl in Ho. congruence.
  - simpl in Ho. fold s1 in Hc. rewrite Hb. simpl. fold s1. congruence.
Qed.

(** The same pass when the oracle has no answer. *)
Lemma step_branch_None (s : state) ns actions i choice diag :
  let s1 := run_model model (mark_visited (append_walk s)) in
  current s ∉ visited s →
  neighbors !! current s = Some ns → (2 ≤ length ns)%nat →
  model_choice model ns s1 = Ok (actions, i, choice) →
  get_edlib_best env idx (current s) neighbors = Ok (diag, None) →
  step s =
    Break (emit (map Print_oracle diag ++
                 [Print_prediction (previous (walk s ++ [current s]))
                    (current s) ns actions choice None]) s1).
Proof.
  intros s1 Hout Hns Hlen Hchoice Horacle.
  destruct (step_cases model env idx neighbors mode s) as [[? _]|[_ H]];
    [done|].
  rewrite Hns in H. destruct ns as [|n [|n' ns]]; simpl in Hlen; try lia.
  rewrite H.
  destruct (branch_cases model env idx neighbors mode (n :: n' :: ns)
              (mark_visited (append_walk s)))
    as [[e Hb]|[(a & j & c & d & Hc & Ho & Hb)|(? & ? & ? & ? & _ & Ho & _)]].
  - unfold branch in Hb. fold s1 in Hb. rewrite Hchoice in Hb.
    destruct (run_model_frame model (mark_visited (append_walk s)))
      as (Hcur & _). fold s1 in Hcur. simpl in Hcur.
    rewrite Hcur, Horacle in Hb. discriminate.
  - simpl in Ho. fold s1 in Hc. rewrite Hb. simpl. fold s1. congruence.
  - simpl in Ho. congruence.
Qed.
End BranchFacts.

(** * The specification, claim by claim *)

(** ** Path enumerator *)

(** C6.  Whatever the start node, the adjacency map and the depth [d]:
    at depth 0 the enumerator returns exactly [[start]]; every path it
    returns at depth [d] has [d + 1] elements; and a start node without
    neighbors yields no path at all at any positive depth, so a path that
    dead-ends early is left out rather than returned short. *)
Theorem get_paths_length (neighbors : adjacency) (start : node) (d : nat) :
  get_paths neighbors 0 start = Ok [[start]] ∧
  (∀ paths, get_paths neighbors d start = Ok paths →
            Forall (fun path => length path = S d) paths) ∧
  (neighbors !! start = Some [] → get_paths neighbors (S d) start = Ok []).
Proof.
  split_and!.
  - done.
  - apply get_paths_length_aux.
  - intros Hns. simpl. by rewrite Hns.
Qed.

Lemma get_paths_length_witness :
  Forall (fun path => length path = 5%nat)
    [[10; 8; 6; 2; 0]; [12; 8; 6; 2; 0]; [10; 8; 6; 4; 0]; [12; 8; 6; 4; 0]] ∧
  get_paths Example.ex_neighbors 3 20 = Ok [].
Proof.
  split.
  - apply (get_paths_length Example.ex_neighbors 0 4). vm_compute. reflexivity.
  - apply (get_paths_length Example.ex_neighbors 20 2). vm_compute. reflexivity.
Defined.

Section Claims.
Context {Score Loss Latent Weights : Type}.
Variable model : @learner Score Loss Latent Weights.
Variable env : oracle_env.
Variable idx : Z.
Variable neighbors : adjacency.
Variable mode : string.

Local Abbreviation state := (@state Score Loss Latent Weights).
Local Abbreviation step := (step model env idx neighbors mode).
Local Abbreviation loop := (loop model env idx neighbors mode).
Local Abbreviation passes := (passes model env idx neighbors mode).
Local Abbreviation after_loop := (after_loop model mode).
Local Abbreviation process := (process model env idx neighbors mode).

(** ** Virtual pairs *)

(** C7.  Taking the virtual pair twice gives the node back, and a node
    that a pass through the loop body newly marks as visited has its
    virtual pair marked by the end of that same pass. *)
Theorem visited_with_complement (s : state) (n : node) :
  complement (complement n) = n ∧
  (n ∈ visited (flow_state (step s)) → n ∉ visited s →
   complement n ∈ visited (flow_state (step s))).
Proof.
  split; [apply complement_involutive|].
  intros Hin Hout.
  destruct (step_visited model env idx neighbors mode s) as [H|H];
    rewrite H in *; [done|].
  apply elem_of_union in Hin as [Hin|Hin];
    [apply elem_of_union in Hin as [Hin|Hin]; [done|] |].
  - apply elem_of_singleton in Hin as ->.
    apply elem_of_union. right. by apply elem_of_singleton.
  - apply elem_of_singleton in Hin as ->. rewrite complement_involutive.
    apply elem_of_union. left. apply elem_of_union. right.
    by apply elem_of_singleton.
Qed.

(** ** Errors that leave the call *)

(** C9.  When the walk, after any number of passes, stands on a node that
    has not been visited and has no entry in the adjacency map, the pass
    prints that node and raises the [KeyError] again; the call ends with
    that exception, and the print is the last thing it did. *)
Theorem missing_neighbors_reraised w num_nodes pred start rest k (s : state) :
  start_nodes num_nodes pred = start :: rest →
  passes k (initial_state model w start) = Some s →
  current s ∉ visited s →
  neighbors !! current s = None →
  process w num_nodes pred =
    Some {| events := output s ++ [Print_node (current s)];
            final_weights := weights s;
            returned := Raise (KeyError (current s)) |}.
Proof.
  intros Hstart Hpasses Hout Hns.
  assert (step s = Abort (KeyError (current s))
                     (emit [Print_node (current s)]
                        (mark_visited (append_walk s)))) as Hstep.
  { destruct (step_cases model env idx neighbors mode s) as [[? _]|[_ H]];
      [done|]. by rewrite Hns in H. }
  rewrite (process_raised model env idx neighbors mode w num_nodes pred
             start rest (k + 1) (KeyError (current s))
             (emit [Print_node (current s)] (mark_visited (append_walk s))));
    [done..|].
  rewrite (loop_passes model env idx neighbors mode k _ s) by done.
  simpl. by rewrite Hstep.
Qed.

(** C10.  When every id of the graph's range is a key of the predecessor
    map, the call ends with an [IndexError] and an empty trace: nothing
    was printed and neither the model nor the optimizer was called. *)
Theorem no_root_index_error w num_nodes pred :
  (∀ i, (i < num_nodes)%nat → Z.of_nat i ∈ dom pred) →
  process w num_nodes pred =
    Some {| events := []; final_weights := w; returned := Raise IndexError |}.
Proof.
  intros Hall.
  assert (start_nodes num_nodes pred = []) as Hnone.
  { destruct (start_nodes num_nodes pred) as [|n rest] eqn:Hnodes; [done|].
    assert (n ∈ start_nodes num_nodes pred) as Hn
      by (rewrite Hnodes; by left).
    unfold start_nodes in Hn.
    apply elem_of_elements, elem_of_difference in Hn as [Hn Hnot].
    apply elem_of_list_to_set, list_elem_of_fmap in Hn as (i & -> & Hi).
    apply elem_of_seq in Hi. destruct Hnot. apply Hall. lia. }
  unfold_process. by rewrite Hnone.
Qed.

(** ** Branch decisions *)

(** C4.  At a branch where the oracle names a neighbor, the pass
    continues from that neighbor whatever the model chose, [total] grows
    by one, and [correct] grows by one exactly when the model's choice is
    the oracle's neighbor and stays as it was otherwise. *)
Theorem teacher_forcing (s : state) ns actions i choice diag best :
  current s ∉ visited s →
  neighbors !! current s = Some ns → (2 ≤ length ns)%nat →
  model_choice model ns (run_model model (mark_visited (append_walk s)))
  = Ok (actions, i, choice) →
  get_edlib_best env idx (current s) neighbors = Ok (diag, Some best) →
  ∃ s', step s = Continue s' ∧
        current s' = best ∧
        total s' = S (total s) ∧
        (correct s' = S (correct s) ↔ choice = best) ∧
        (correct s' = correct s ↔ choice ≠ best).
Proof.
  intros Hout Hns Hlen Hchoice Horacle.
  rewrite (step_branch_Some model env idx neighbors mode s ns actions i
             choice diag best) by done.
  eexists. split; [done|].
  match goal with
  | |- context [sequential_update model mode ?l ?t] =>
      destruct (sequential_update_frame model mode l t)
        as (-> & _ & _ & _ & _ & -> & ->)
  end.
  destruct (run_model_frame model (mark_visited (append_walk s)))
    as (_ & _ & _ & _ & _ & Hn & Hc & _).
  simpl. rewrite Hn, Hc. simpl.
  split_and!; [done..| |]; case_decide; split; intros; try done; lia.
Qed.

(** The loss such a pass records is the criterion at the scores of the
    neighbors and at the position [torch.topk] returned, the position of
    the model's own choice; the oracle's neighbor does not enter it. *)
Lemma recorded_loss_target (s : state) ns actions i choice diag best :
  current s ∉ visited s →
  neighbors !! current s = Some ns → (2 ≤ length ns)%nat →
  model_choice model ns (run_model model (mark_visited (append_walk s)))
  = Ok (actions, i, choice) →
  get_edlib_best env idx (current s) neighbors = Ok (diag, Some best) →
  ∃ s', step s = Continue s' ∧
        loss_list s' = loss_list s ++ [criterion model actions i] ∧
        topk1 model actions = Ok i ∧
        ns !! i = Some choice.
Proof.
  intros Hout Hns Hlen Hchoice Horacle.
  rewrite (step_branch_Some model env idx neighbors mode s ns actions i
             choice diag best) by done.
  eexists. split; [done|].
  match goal with
  | |- context [sequential_update model mode ?l ?t] =>
      destruct (sequential_update_frame model mode l t)
        as (_ & _ & _ & -> & _)
  end.
  destruct (run_model_frame model (mark_visited (append_walk s)))
    as (_ & _ & _ & Hl & _).
  simpl. rewrite Hl. simpl.
  apply model_choice_inv in Hchoice as (pa & _ & _ & ? & ?). done.
Qed.

(** ** The alignment oracle *)

(** C3.  The scored candidates are the candidate paths that pass the
    strand filter.  When there are some, the oracle answers with the
    second node of one whose score is least; when there are none it
    answers [None].  And a branch pass at which the oracle answers [None]
    breaks out of the loop right there: the walk ends with the current
    node, and the loss history and the counters are as they were. *)
Theorem oracle_selection_and_none ref_start r_en strand current_ paths
    distances (s : state) ns actions i choice diag :
  (anchor env current_ = Ok (ref_start, r_en, strand) →
   candidate_paths neighbors current_ = Ok paths →
   edlib_distances env ref_start strand paths = Ok distances →
   distances.*1 = filter (fun p => same_strand env strand p = true) paths ∧
   (distances = [] →
    ∃ diagnostics,
      get_edlib_best env idx current_ neighbors = Ok (diagnostics, None)) ∧
   (distances ≠ [] →
    ∃ best score b,
      (best, score) ∈ distances ∧
      (∀ p sc, (p, sc) ∈ distances → Qle score sc) ∧
      best !! 1%nat = Some b ∧
      get_edlib_best env idx current_ neighbors = Ok ([], Some b))) ∧
  (current s ∉ visited s →
   neighbors !! current s = Some ns → (2 ≤ length ns)%nat →
   model_choice model ns (run_model model (mark_visited (append_walk s)))
   = Ok (actions, i, choice) →
   get_edlib_best env idx (current s) neighbors = Ok (diag, None) →
   ∃ s', step s = Break s' ∧
         (∀ fuel, loop (S fuel) s = Finished s') ∧
         walk s' = walk s ++ [current s] ∧
         loss_list s' = loss_list s ∧
         total s' = total s ∧ correct s' = correct s).
Proof.
  split.
  - intros Hanchor Hpaths Hdist.
    pose proof (get_edlib_best_spec env idx current_ neighbors _ _ _ _ _
                  Hanchor Hpaths Hdist) as Hbest.
    split_and!.
    + by apply edlib_distances_spec in Hdist as [? _].
    + intros ->. simpl in Hbest. eauto.
    + intros Hne.
      destruct (py_min snd distances) as [[best score]|] eqn:Hmin;
        [|by apply py_min_None in Hmin].
      destruct Hbest as (b & Hb & Hrun).
      apply py_min_spec in Hmin as [Hin Hle].
      exists best, score, b. split_and!; [done| |done..].
      intros p sc Hp. apply (Hle (p, sc) Hp).
  - intros Hout Hns Hlen Hchoice Horacle.
    pose proof (step_branch_None model env idx neighbors mode s ns actions i
                  choice diag Hout Hns Hlen Hchoice Horacle) as Hstep.
    eexists. split; [exact Hstep|].
    destruct (run_model_frame model (mark_visited (append_walk s)))
      as (_ & _ & Hw & Hl & _ & Hn & Hc & _).
    split_and!; try done. intros fuel. simpl. by rewrite Hstep.
Qed.

(** C8.  Granted that edlib's edit distance is never negative, every
    scored candidate has a score of at least 0; that score is the edit
    distance of the candidate's composite sequence against the reference
    window, over the width of the window, which is the length of the
    composite sequence. *)
Theorem score_nonneg ref_start strand paths distances path score :
  (∀ q t, 0 ≤ editDistance env q t) →
  edlib_distances env ref_start strand paths = Ok distances →
  (path, score) ∈ distances →
  Qle 0 score ∧
  ∃ query sequence,
    sequence ≠ [] ∧
    score = Qdiv (inject_Z (editDistance env query sequence))
                 (inject_Z (Z.of_nat (length sequence))).
Proof.
  intros Hedit Hdist Hin.
  apply edlib_distances_spec in Hdist as [_ Hscore].
  specialize (Hscore _ Hin). simpl in Hscore. split.
  - by apply (score_path_nonneg env _ _ _ _ Hedit Hscore).
  - by apply (score_path_inv env _ _ _ _ Hscore).
Qed.

(** ** Optimization steps *)

(** A pass that changes [total] is a branch pass that recorded a loss;
    under the sequential model in training mode it ends with one
    optimization step on that loss. *)
Lemma step_records (s s' : state) :
  step s = Continue s' → total s' ≠ total s →
  ∃ loss quiet,
    loss_list s' = loss_list s ++ [loss] ∧
    optimizer_events quiet = [] ∧
    output s' =
      output s ++ quiet ++
      (if bool_decide (kind model = SequentialModel) && training mode
       then update_events loss else []).
Proof.
  intros Hstep Htotal.
  destruct (step_cases model env idx neighbors mode s) as [[_ H]|[_ H]];
    [congruence|].
  destruct (neighbors !! current s) as [[|n [|n' ns]]|];
    rewrite H in Hstep; try discriminate.
  { injection Hstep as <-. by destruct Htotal. }
  clear H. set (s1 := mark_visited (append_walk s)) in *.
  destruct (branch_cases model env idx neighbors mode (n :: n' :: ns) s1)
    as [[e H]|[(? & ? & ? & ? & _ & _ & H)|(a & i & c & b & _ & _ & H)]];
    rewrite H in Hstep; try discriminate.
  injection Hstep as <-. clear H Htotal.
  destruct (run_model_frame model s1) as (_ & _ & _ & Hl & _).
  destruct (run_model_output model s1) as (evs & Hevs & Hq).
  exists (criterion model a i),
    (evs ++ [Print_prediction (previous (walk s1)) (current s1)
               (n :: n' :: ns) a c (Some b)]).
  unfold sequential_update.
  destruct (bool_decide (kind model = SequentialModel) && training mode);
    simpl; rewrite Hl, Hevs, ?optimizer_events_app, ?Hq, <- ?app_assoc;
    simpl; by rewrite ?app_nil_r.
Qed.

(** C2, as the code has it.  In training mode, for a walk whose loop ends:
    under the sequential model every pass that records a branch loss ends
    with one optimization step on that loss, those are all the optimizer
    calls of the loop, and nothing follows the loop; under the
    graph-embedding model the loop makes no optimizer call, and when at
    least one loss was recorded the loop is followed by exactly one
    optimization step, on the sum of the recorded losses. *)
Theorem update_discipline w num_nodes pred start rest fuel
    (s_end s s' : state) :
  training mode = true →
  start_nodes num_nodes pred = start :: rest →
  loop fuel (initial_state model w start) = Finished s_end →
  process w num_nodes pred = Some (after_loop s_end) ∧
  match kind model with
  | SequentialModel =>
      (step s = Continue s' → total s' ≠ total s →
       ∃ loss quiet,
         loss_list s' = loss_list s ++ [loss] ∧
         optimizer_events quiet = [] ∧
         output s' = output s ++ quiet ++ update_events loss) ∧
      optimizer_events (output s_end)
      = flat_map update_events (loss_list s_end) ∧
      events (after_loop s_end) = output s_end
  | GCNModel =>
      optimizer_events (output s_end) = [] ∧
      ∀ l ls, loss_list s_end = l :: ls →
        events (after_loop s_end)
        = output s_end ++ update_events (fold_left (loss_add model) ls l)
  | OtherModel =>
      optimizer_events (events (after_loop s_end)) = []
  end.
Proof.
  intros Htrain Hstart Hloop.
  split; [by eapply process_finished|].
  pose proof (loop_bookkeeping model env idx neighbors mode fuel _
                (initial_state_bookkeeping model mode w start)) as Hbook.
  rewrite Hloop in Hbook. destruct Hbook as (_ & Hsum & _ & Hopt).
  unfold_after_loop. rewrite Htrain in *.
  destruct (kind model) eqn:Hkind; simpl in *.
  - split; [done|]. intros l ls Hls.
    rewrite Hls, sum_losses_cons in Hsum. rewrite Hsum. simpl.
    by rewrite <- app_assoc.
  - split_and!; [|done..]. intros Hstep Htotal.
    destruct (step_records s s' Hstep Htotal) as (loss & quiet & ? & ? & Ho).
    rewrite Hkind, Htrain in Ho. simpl in Ho. by exists loss, quiet.
  - done.
Qed.

(** ** The returned pair *)

(** C5, as the code has it.  For a walk whose loop ends, unless the
    model is the graph-embedding one in training mode and no branch was
    recorded: the loss history has one entry per recorded branch; with at
    least one the call returns the history and [correct / total]; with
    none it raises [ZeroDivisionError]; and it raises that error in no
    other case. *)
Theorem accuracy_or_division_by_zero w num_nodes pred start rest fuel
    (s : state) :
  start_nodes num_nodes pred = start :: rest →
  loop fuel (initial_state model w start) = Finished s →
  ¬ (kind model = GCNModel ∧ training mode = true ∧ total s = 0%nat) →
  ∃ o, process w num_nodes pred = Some o ∧
       length (loss_list s) = total s ∧
       (total s ≠ 0%nat →
        returned o = Ok (loss_list s,
                         Qdiv (inject_Z (Z.of_nat (correct s)))
                              (inject_Z (Z.of_nat (total s))))) ∧
       (returned o = Raise ZeroDivisionError ↔ total s = 0%nat).
Proof.
  intros Hstart Hloop Hnot.
  exists (after_loop s). split; [by eapply process_finished|].
  pose proof (loop_bookkeeping model env idx neighbors mode fuel _
                (initial_state_bookkeeping model mode w start)) as Hbook.
  rewrite Hloop in Hbook. destruct Hbook as (Hlen & Hsum & _ & _).
  split; [done|].
  assert (returned (after_loop s) = returned (accuracy_and_return s))
    as ->.
  { unfold_after_loop.
    destruct (bool_decide (kind model = GCNModel) && training mode)
      eqn:Hgcn; [|done].
    apply andb_true_iff in Hgcn as [Hk Ht]. apply bool_decide_eq_true in Hk.
    destruct (loss_list s) as [|l ls] eqn:Hls.
    - destruct Hnot. by rewrite Hlen.
    - simpl. by rewrite Hsum, sum_losses_cons. }
  simpl. unfold true_div.
  destruct (Z.eqb_spec (Z.of_nat (total s)) 0) as [Hz|Hz]; simpl.
  - split; [lia|]. split; [lia|done].
  - split; [done|]. split; [done|lia].
Qed.
End Claims.

(** ** The worked instance, claim by claim *)

Section Instance.
Import Example.

Local Abbreviation seq_model := (ex_model SequentialModel).
Local Abbreviation gcn_model := (ex_model GCNModel).

(** Two targets give the same cross-entropy only when their scores agree. *)
Lemma cross_entropy_targets scores i j :
(cross_entropy scores i - cross_entropy scores j
 = IZR (nth j scores 0%Z) - IZR (nth i scores 0%Z))%R.
Proof. unfold cross_entropy. lra. Qed.

(** C1, on the code.  At node 0 the neighbors are [2; 4], the model scores
  them [3; 1] and so chooses 2, at position 0, while the oracle selects 4,
  at position 1.  The loss the walk records for this branch is the
  cross-entropy against position 0, the model's own choice; its value
  differs from the cross-entropy against position 1, the oracle's. *)
Theorem loss_targets_model_choice :
ex_neighbors !! 0 = Some [2; 4] ∧
model_choice seq_model [2; 4]
  (run_model seq_model
     (mark_visited (append_walk (ex_start SequentialModel))))
= Ok ([3; 1], 0%nat, 2) ∧
get_edlib_best ex_env 7 0 ex_neighbors = Ok ([], Some 4) ∧
returned <$> ex_call SequentialModel "train"
= Some (Ok ([CrossEntropy [3; 1] 0; CrossEntropy [5; 2] 0], 1 # 2)) ∧
loss_value (CrossEntropy [3; 1] 0) ≠ loss_value (CrossEntropy [3; 1] 1).
Proof.
split_and!; [by vm_compute..|].
simpl. intros Heq.
pose proof (cross_entropy_targets [3; 1] 0 1) as Hdiff.
rewrite Heq in Hdiff. simpl in Hdiff. lra.
Qed.

(** C2, as stated, fails on the chain 0 → 2 → 4 under the graph-embedding
  model in training mode: the loop ends, the gradients are zeroed, and
  the call stops with an [AttributeError] at [total_loss.backward()],
  [total_loss] still being the integer 0 of line 123.  The update that
  lines 187-190 set out to make, and that their comment announces, does
  not take place: no backward pass, no optimizer step. *)
Lemma gcn_chain_no_update :
total <$> finished chain_loop = Some 0%nat ∧
events <$> chain_call
= Some [Print_iterating; Model_embed; Model_classify; Print_shape 22;
        Zero_grad] ∧
∀ out, chain_call = Some out →
       ∀ l, optimizer_events (events out) ≠ update_events l.
Proof.
split_and!; [by vm_compute..|].
intros out Hout l. vm_compute in Hout. injection Hout as <-.
by vm_compute.
Qed.

(** C5, as stated, fails on the same call: no branch is met, [total] is 0,
  and the exception that leaves the call is the [AttributeError] of
  [total_loss.backward()], not the division by zero of line 192 that
  the same walk gives under the sequential model or outside training. *)
Lemma gcn_chain_attribute_error :
total <$> finished chain_loop = Some 0%nat ∧
returned <$> chain_call = Some (Raise AttributeError) ∧
returned <$> chain_call ≠ Some (Raise ZeroDivisionError).
Proof. split_and!; by vm_compute. Qed.

(** *** The theorems at the worked instance *)

Lemma visited_with_complement_witness :
complement (complement 0) = 0 ∧
complement 0 ∈
  visited (flow_state (step seq_model ex_env 7 ex_neighbors "train"
                         (ex_start SequentialModel))).
Proof.
split.
- apply (visited_with_complement seq_model ex_env 7 ex_neighbors "train"
           (ex_start SequentialModel) 0).
- apply (visited_with_complement seq_model ex_env 7 ex_neighbors "train"
           (ex_start SequentialModel) 0); by vm_compute.
Defined.

Lemma missing_neighbors_reraised_witness :
process gcn_model ex_env 7 broken_neighbors "train" 0%nat 22 ex_pred
= Some {| events := [Print_iterating; Model_embed; Model_classify;
                     Print_shape 22; Print_node 2];
          final_weights := 0%nat;
          returned := Raise (KeyError 2) |}.
Proof.
apply (missing_neighbors_reraised gcn_model ex_env 7 broken_neighbors
         "train" 0%nat 22 ex_pred 0 [] 1
         (set_current 2 (mark_visited (append_walk (ex_start GCNModel)))));
  by vm_compute.
Defined.

Lemma no_root_index_error_witness :
process gcn_model ex_env 7 ex_neighbors "train" 0%nat 22 full_pred
= Some {| events := []; final_weights := 0%nat;
          returned := Raise IndexError |}.
Proof.
apply (no_root_index_error gcn_model ex_env 7 ex_neighbors "train").
intros i Hi.
do 22 (destruct i as [|i]; [by vm_compute|]). lia.
Defined.

Lemma teacher_forcing_witness :
∃ s', step seq_model ex_env 7 ex_neighbors "train"
        (ex_start SequentialModel) = Continue s' ∧
      current s' = 4 ∧
      total s' = 1%nat ∧
      (correct s' = 1%nat ↔ 2 = 4) ∧
      (correct s' = 0%nat ↔ 2 ≠ 4).
Proof.
apply (teacher_forcing seq_model ex_env 7 ex_neighbors "train"
         (ex_start SequentialModel) [2; 4] [3; 1] 0%nat 2 [] 4);
  by vm_compute.
Defined.

Lemma oracle_selection_and_none_witness :
(∃ best score b,
   (best, score) ∈ [([0; 2; 6; 8; 10], 2 # 16); ([0; 2; 6; 8; 12], 6 # 16);
                    ([0; 4; 6; 8; 10], 0 # 16); ([0; 4; 6; 8; 12], 4 # 16)] ∧
   (∀ p sc,
      (p, sc) ∈ [([0; 2; 6; 8; 10], 2 # 16); ([0; 2; 6; 8; 12], 6 # 16);
                 ([0; 4; 6; 8; 10], 0 # 16); ([0; 4; 6; 8; 12], 4 # 16)] →
      Qle score sc) ∧
   best !! 1%nat = Some b ∧
   get_edlib_best ex_env 7 0 ex_neighbors = Ok ([], Some b)) ∧
(∃ diagnostics,
   get_edlib_best opposite_env 7 0 ex_neighbors = Ok (diagnostics, None)) ∧
(∃ s', step seq_model opposite_env 7 ex_neighbors "train"
         (ex_start SequentialModel) = Break s' ∧
       (∀ fuel, loop seq_model opposite_env 7 ex_neighbors "train" (S fuel)
                  (ex_start SequentialModel) = Finished s') ∧
       walk s' = [0] ∧ loss_list s' = [] ∧
       total s' = 0%nat ∧ correct s' = 0%nat).
Proof.
split_and!.
- apply (oracle_selection_and_none seq_model ex_env 7 ex_neighbors "train"
           0 4 1 0
           [[0; 2; 6; 8; 10]; [0; 2; 6; 8; 12];
            [0; 4; 6; 8; 10]; [0; 4; 6; 8; 12]]
           [([0; 2; 6; 8; 10], 2 # 16); ([0; 2; 6; 8; 12], 6 # 16);
            ([0; 4; 6; 8; 10], 0 # 16); ([0; 4; 6; 8; 12], 4 # 16)]
           (ex_start SequentialModel) [] [] 0%nat 0 []); by vm_compute.
- apply (oracle_selection_and_none seq_model opposite_env 7 ex_neighbors
           "train" 0 4 (-1) 0
           [[0; 2; 6; 8; 10]; [0; 2; 6; 8; 12];
            [0; 4; 6; 8; 10]; [0; 4; 6; 8; 12]]
           [] (ex_start SequentialModel) [] [] 0%nat 0 []); by vm_compute.
- apply (oracle_selection_and_none seq_model opposite_env 7 ex_neighbors
           "train" 0 4 (-1) 0 [] []
           (ex_start SequentialModel) [2; 4] [3; 1] 0%nat 2
           [AllOppositeStrand; GraphIndex 7; CurrentNode 0;
            CandidatePaths [[0; 2; 6; 8; 10]; [0; 2; 6; 8; 12];
                            [0; 4; 6; 8; 10]; [0; 4; 6; 8; 12]]]);
    by vm_compute.
Defined.

Lemma score_nonneg_witness :
Qle 0 (2 # 16) ∧
∃ query sequence,
  sequence ≠ [] ∧
  2 # 16 = Qdiv (inject_Z (editDistance ex_env query sequence))
                (inject_Z (Z.of_nat (length sequence))).
Proof.
apply (score_nonneg ex_env 0 1
         [[0; 2; 6; 8; 10]; [0; 2; 6; 8; 12];
          [0; 4; 6; 8; 10]; [0; 4; 6; 8; 12]]
         [([0; 2; 6; 8; 10], 2 # 16); ([0; 2; 6; 8; 12], 6 # 16);
          ([0; 4; 6; 8; 10], 0 # 16); ([0; 4; 6; 8; 12], 4 # 16)]
         [0; 2; 6; 8; 10] (2 # 16)).
- intros q t. simpl. lia.
- by vm_compute.
- by left.
Defined.

Lemma update_discipline_witness :
(∃ loss quiet,
   loss_list ex_after_first
   = loss_list (ex_start SequentialModel) ++ [loss] ∧
   optimizer_events quiet = [] ∧
   output ex_after_first
   = output (ex_start SequentialModel) ++ quiet ++ update_events loss) ∧
(optimizer_events (output (ex_end SequentialModel))
 = flat_map update_events (loss_list (ex_end SequentialModel)) ∧
 events (after_loop seq_model "train" (ex_end SequentialModel))
 = output (ex_end SequentialModel)) ∧
events (after_loop gcn_model "train" (ex_end GCNModel))
= output (ex_end GCNModel) ++
  update_events (Plus (CrossEntropy [3; 1] 0) (CrossEntropy [5; 2] 0)).
Proof.
split; [|split].
- destruct (update_discipline seq_model ex_env 7 ex_neighbors "train"
              0%nat 22 ex_pred 0 [] 12 (ex_end SequentialModel)
              (ex_start SequentialModel) ex_after_first)
    as [_ [H _]]; [by vm_compute..|].
  apply H; by vm_compute.
- destruct (update_discipline seq_model ex_env 7 ex_neighbors "train"
              0%nat 22 ex_pred 0 [] 12 (ex_end SequentialModel)
              (ex_start SequentialModel) ex_after_first)
    as [_ [_ H]]; [by vm_compute..|].
  exact H.
- destruct (update_discipline gcn_model ex_env 7 ex_neighbors "train"
              0%nat 22 ex_pred 0 [] 12 (ex_end GCNModel)
              (ex_start GCNModel) (ex_start GCNModel))
    as [_ [_ H]]; [by vm_compute..|].
  apply (H (CrossEntropy [3; 1] 0) [CrossEntropy [5; 2] 0]).
  by vm_compute.
Defined.

Lemma accuracy_or_division_by_zero_witness :
(∃ o, process seq_model ex_env 7 ex_neighbors "train" 0%nat 22 ex_pred
      = Some o ∧
      length (loss_list (ex_end SequentialModel))
      = total (ex_end SequentialModel) ∧
      (total (ex_end SequentialModel) ≠ 0%nat →
       returned o
       = Ok (loss_list (ex_end SequentialModel),
             Qdiv (inject_Z (Z.of_nat (correct (ex_end SequentialModel))))
                  (inject_Z (Z.of_nat (total (ex_end SequentialModel)))))) ∧
      (returned o = Raise ZeroDivisionError ↔
       total (ex_end SequentialModel) = 0%nat)) ∧
(∃ o, process seq_model ex_env 7 chain_neighbors "train" 0%nat 22 ex_pred
      = Some o ∧
      length (loss_list chain_end) = total chain_end ∧
      (total chain_end ≠ 0%nat →
       returned o
       = Ok (loss_list chain_end,
             Qdiv (inject_Z (Z.of_nat (correct chain_end)))
                  (inject_Z (Z.of_nat (total chain_end))))) ∧
      (returned o = Raise ZeroDivisionError ↔ total chain_end = 0%nat)).
Proof.
split.
- apply (accuracy_or_division_by_zero seq_model ex_env 7 ex_neighbors
           "train" 0%nat 22 ex_pred 0 [] 12 (ex_end SequentialModel));
    [by vm_compute..|].
  intros [Hkind _]. discriminate Hkind.
- apply (accuracy_or_division_by_zero seq_model ex_env 7 chain_neighbors
           "train" 0%nat 22 ex_pred 0 [] 4 chain_end);
    [by vm_compute..|].
  intros [Hkind _]. discriminate Hkind.
Defined.
End Instance.

(** * Further properties of the code *)

(** ** Loops that may raise *)

Lemma for_each_Raise {A S} (xs : list A) (body : S → A → result S) :
  ∀ acc e, for_each xs body acc = Raise e →
           ∃ x acc', x ∈ xs ∧ body acc' x = Raise e.
Proof.
  induction xs as [|x xs IH]; simpl; intros acc e H; [discriminate|].
  destruct (body acc x) as [acc'|e'] eqn:Hbody; simpl in H.
  - destruct (IH _ _ H) as (y & a & Hy & Hr). exists y, a. split; [by right|done].
  - injection H as <-. exists x, acc. split; [by left|done].
Qed.

Lemma elem_of_concat {A} (x : A) (ls : list (list A)) :
  x ∈ concat ls ↔ ∃ l, x ∈ l ∧ l ∈ ls.
Proof.
  induction ls as [|l ls IH]; simpl.
  - split; [by intros ?%elem_of_nil|]. by intros (? & _ & ?%elem_of_nil).
  - rewrite elem_of_app, IH. split.
    + intros [?|(l' & ? & ?)]; [exists l; split; [done|by left]|].
      exists l'. split; [done|by right].
    + intros (l' & Hx & [->|?]%elem_of_cons); [by left|right; eauto].
Qed.

(** ** Path enumerator *)

Section PathFacts.
Variable neighbors : adjacency.

Lemma is_edge_spec a b :
is_edge neighbors a b = true ↔ ∃ ns, neighbors !! a = Some ns ∧ b ∈ ns.
Proof.
unfold is_edge. destruct (neighbors !! a) as [ns|].
- rewrite bool_decide_eq_true. split; [eauto|]. by intros (? & [= <-] & ?).
- split; [done|]. by intros (? & ? & _).
Qed.

(** The accumulating loop of [get_paths], all at once. *)
Lemma get_paths_loop d start ns : ∀ acc paths,
for_each ns
  (fun paths neighbor =>
     next_paths ← get_paths neighbors d neighbor;
     Ok (paths ++ map (fun path => path ++ [start]) next_paths)) acc
= Ok paths →
∃ subs, Forall2 (fun n sub => get_paths neighbors d n = Ok sub) ns subs ∧
        paths = acc ++ concat (map (map (fun q => q ++ [start])) subs).
Proof.
induction ns as [|n ns IH]; simpl; intros acc paths H.
- injection H as <-. exists []. split; [constructor|]. by rewrite app_nil_r.
- inv_bind H. inv_bind Hbind. injection Hbind as <-.
  destruct (IH _ _ H) as (subs & Hall & ->).
  exists (a0 :: subs). split; [by constructor|].
  simpl. by rewrite app_assoc.
Qed.

Lemma get_paths_unfold d start paths :
get_paths neighbors (S d) start = Ok paths →
∃ ns subs, neighbors !! start = Some ns ∧
           Forall2 (fun n sub => get_paths neighbors d n = Ok sub) ns subs ∧
           paths = concat (map (map (fun q => q ++ [start])) subs).
Proof.
simpl. destruct (neighbors !! start) as [ns|]; [|discriminate].
intros H. apply get_paths_loop in H as (subs & ? & ->). by exists ns, subs.
Qed.

Lemma is_chain_cons a p :
is_chain neighbors (a :: p) =
match p with
| [] => true
| b :: _ => is_edge neighbors a b && is_chain neighbors p
end.
Proof. by destruct p. Qed.

Lemma get_paths_walks d : ∀ start paths p,
get_paths neighbors d start = Ok paths →
p ∈ paths ↔
length p = S d ∧ last p = Some start ∧ is_chain neighbors (rev p) = true.
Proof.
induction d as [|d IH]; intros start paths p Hrun.
- injection Hrun as <-. rewrite list_elem_of_singleton. split.
  + by intros ->.
  + intros (Hlen & Hlast & _). destruct p as [|x [|y p]]; try done.
    by injection Hlast as ->.
- apply get_paths_unfold in Hrun as (ns & subs & Hns & Hsubs & ->).
  rewrite elem_of_concat. split.
  + intros (l & Hp & Hl). apply list_elem_of_fmap in Hl as (sub & -> & Hsub).
    apply list_elem_of_fmap in Hp as (q & -> & Hq).
    apply list_elem_of_lookup in Hsub as (i & Hi).
    destruct (Forall2_lookup_r _ _ _ _ _ Hsubs Hi) as (n & Hn & Hrun).
    apply (IH n sub q Hrun) in Hq as (Hlen & Hlast & Hchain).
    rewrite length_app, last_snoc, rev_unit, is_chain_cons. simpl.
    split_and!; [lia|done|].
    destruct (rev q) as [|b r] eqn:Hrev.
    { apply (f_equal length) in Hrev. rewrite length_rev in Hrev.
      simpl in Hrev. lia. }
    assert (b = n) as ->.
    { assert (q = rev r ++ [b]) as Hq'
        by (by rewrite <- (rev_involutive q), Hrev).
      rewrite Hq', last_snoc in Hlast. by injection Hlast. }
    rewrite Hchain, andb_true_r. apply is_edge_spec. exists ns.
    split; [done|]. by eapply list_elem_of_lookup_2.
  + intros (Hlen & Hlast & Hchain).
    destruct (rev p) as [|a [|b r]] eqn:Hrev.
    { apply (f_equal length) in Hrev. rewrite length_rev in Hrev.
      simpl in Hrev. lia. }
    { apply (f_equal length) in Hrev. rewrite length_rev in Hrev.
      simpl in Hrev. lia. }
    assert (p = rev r ++ [b] ++ [a]) as Hp.
    { rewrite <- (rev_involutive p), Hrev. simpl. by rewrite <- app_assoc. }
    assert (a = start) as ->.
    { rewrite Hp, app_assoc, last_snoc in Hlast. by injection Hlast. }
    rewrite is_chain_cons in Hchain. apply andb_true_iff in Hchain as [He Hc].
    apply is_edge_spec in He as (ns' & Hns' & Hb).
    rewrite Hns in Hns'. injection Hns' as <-.
    apply list_elem_of_lookup in Hb as (i & Hi).
    destruct (Forall2_lookup_l _ _ _ _ _ Hsubs Hi) as (sub & Hsub & Hrun).
    exists (map (fun q => q ++ [start]) sub). split.
    * apply list_elem_of_fmap. exists (rev r ++ [b]). split.
      { by rewrite Hp, app_assoc. }
      apply (IH b sub _ Hrun). rewrite length_app, last_snoc, rev_unit.
      rewrite rev_involutive. split_and!; [|done..].
      rewrite Hp, !length_app in Hlen. simpl in *. lia.
    * apply list_elem_of_fmap. exists sub. split; [done|].
      by eapply list_elem_of_lookup_2.
Qed.

(** X2.  The only exception [get_paths] raises is the [KeyError] of a node
  without an entry, which is the start node or a listed neighbor; so on an
  adjacency map in which the start node and every listed neighbor have an
  entry it always returns. *)
Theorem get_paths_raises_missing_key d : ∀ start,
(∀ e, get_paths neighbors d start = Raise e →
      ∃ k, e = KeyError k ∧ neighbors !! k = None ∧
           (k = start ∨ ∃ a ns, neighbors !! a = Some ns ∧ k ∈ ns)) ∧
(is_Some (neighbors !! start) →
 (∀ a ns n, neighbors !! a = Some ns → n ∈ ns → is_Some (neighbors !! n)) →
 ∃ paths, get_paths neighbors d start = Ok paths).
Proof.
assert (∀ start e, get_paths neighbors d start = Raise e →
          ∃ k, e = KeyError k ∧ neighbors !! k = None ∧
               (k = start ∨ ∃ a ns, neighbors !! a = Some ns ∧ k ∈ ns))
  as Hraise.
{ induction d as [|d' IH]; intros start e H; [discriminate|].
  simpl in H. destruct (neighbors !! start) as [ns|] eqn:Hns.
  - apply for_each_Raise in H as (n & acc & Hn & H).
    destruct (get_paths neighbors d' n) as [sub|e'] eqn:Hsub; [discriminate|].
    injection H as <-.
    destruct (IH n e' Hsub) as (k & -> & Hk & [->|Hlisted]).
    + exists n. split_and!; [done..|]. right. by exists start, ns.
    + exists k. split_and!; [done..|]. by right.
  - injection H as <-. exists start. split_and!; [done..|]. by left. }
intros start. split; [apply Hraise|].
intros Hstart Hclosed.
destruct (get_paths neighbors d start) as [paths|e] eqn:Hrun; [eauto|].
destruct (Hraise start e Hrun) as (k & _ & Hk & [->|(a & ns & Ha & Hin)]).
- rewrite Hk in Hstart. by destruct Hstart.
- destruct (Hclosed a ns k Ha Hin) as [? Hsome]. congruence.
Qed.

(** X1.  When [get_paths] returns, it returns exactly the walks of [d] hops
  from [start], each written backwards: a list is among the paths if and
  only if it has [d + 1] nodes, ends with [start], and read from the end
  every node is followed by one of its neighbors.  Nothing keeps a node
  from occurring twice in a path. *)
Theorem get_paths_exactly_the_walks d start paths p :
get_paths neighbors d start = Ok paths →
p ∈ paths ↔
length p = S d ∧ last p = Some start ∧ is_chain neighbors (rev p) = true.
Proof. apply get_paths_walks. Qed.
End PathFacts.

(** ** The alignment oracle *)

(** [min] keeps the first of several least elements: everything before the
    one it returns is strictly greater. *)
Lemma min_from_first {A} (key : A → Q) (xs : list A) : ∀ best,
  ∃ pre post,
    best :: xs = pre ++ min_from key best xs :: post ∧
    (∀ y, y ∈ pre → Qlt (key (min_from key best xs)) (key y)) ∧
    (∀ y, y ∈ post → Qle (key (min_from key best xs)) (key y)).
Proof.
  induction xs as [|x xs IH]; intros best; simpl.
  - exists [], []. split_and!; [done|intros y Hy..]; by apply elem_of_nil in Hy.
  - destruct (Qlt_bool (key x) (key best)) eqn:Hlt.
    + destruct (IH x) as (pre & post & Heq & Hpre & Hpost).
      exists (best :: pre), post. rewrite Heq. split_and!; [done| |done].
      intros y [->|Hy]%elem_of_cons; [|by apply Hpre].
      assert (Qlt (key x) (key best)) as Hxb.
      { unfold Qlt_bool in Hlt. apply negb_true_iff in Hlt.
        apply Qnot_le_lt. intros Hle. apply Qle_bool_iff in Hle. congruence. }
      eapply Qle_lt_trans; [|exact Hxb].
      destruct (min_from_spec key xs x) as [_ Hmin]. apply Hmin. by left.
    + apply Qlt_bool_false in Hlt.
      destruct (IH best) as (pre & post & Heq & Hpre & Hpost).
      destruct pre as [|b pre]; simpl in Heq.
      * injection Heq as Hb <-. exists [], (x :: xs).
        rewrite <- Hb at 1. split_and!; [done| |].
        -- intros y Hy. by apply elem_of_nil in Hy.
        -- intros y [->|Hy]%elem_of_cons; [|by apply Hpost].
           by rewrite <- Hb.
      * injection Heq as <- Hxs. exists (best :: x :: pre), post.
        split_and!; [by rewrite Hxs at 1| |done].
        intros y [->|[->|Hy]%elem_of_cons]%elem_of_cons.
        -- apply Hpre. by left.
        -- eapply Qlt_le_trans; [|exact Hlt]. apply Hpre. by left.
        -- apply Hpre. by right.
Qed.

Section OracleExtras.
Variable env : oracle_env.

(** X3.  A node the oracle answers with is a neighbor of the current node
  from which the walk can go on: it is the second node of a walk of four
  hops that starts at the current node. *)
Theorem oracle_answer_is_neighbor idx current_ neighbors diag b :
get_edlib_best env idx current_ neighbors = Ok (diag, Some b) →
∃ ns rest,
  neighbors !! current_ = Some ns ∧ b ∈ ns ∧ length rest = 3%nat ∧
  is_chain neighbors (current_ :: b :: rest) = true.
Proof.
intros H. apply get_edlib_best_inv in H
  as (ref_start & r_en & strand & paths & distances & _ & Hpaths & Hdist
      & _ & best & score & Hmin & Hb).
apply py_min_spec in Hmin as [Hin _].
apply edlib_distances_spec in Hdist as [Hfst _].
assert (best ∈ paths) as Hbest.
{ assert (best ∈ distances.*1) as Hb'
    by (apply list_elem_of_fmap; by exists (best, score)).
  rewrite Hfst in Hb'. by apply list_elem_of_filter in Hb' as [_ ?]. }
destruct (candidate_paths_shape _ _ _ _ Hpaths Hbest)
  as (ns & n & rest & Hns & Hn & -> & Hlen).
injection Hb as <-. exists ns, rest. split_and!; [done..|simpl in Hlen; lia|].
unfold candidate_paths in Hpaths. inv_bind Hpaths. injection Hpaths as <-.
apply list_elem_of_fmap in Hbest as (p & Hp & Hin').
apply (get_paths_walks neighbors 4 current_ a p Hbind) in Hin'
  as (_ & _ & Hchain).
by rewrite <- Hp in Hchain.
Qed.

(** X4.  Among several candidates of least score the oracle takes the
  first in the order of enumeration: every scored candidate before the
  chosen one has a strictly greater score, every one after it a score at
  least as great. *)
Theorem oracle_takes_first_minimum idx current_ neighbors ref_start r_en
  strand paths distances b :
anchor env current_ = Ok (ref_start, r_en, strand) →
candidate_paths neighbors current_ = Ok paths →
edlib_distances env ref_start strand paths = Ok distances →
get_edlib_best env idx current_ neighbors = Ok ([], Some b) →
∃ pre best score post,
  distances = pre ++ (best, score) :: post ∧
  best !! 1%nat = Some b ∧
  (∀ d, d ∈ pre → Qlt score d.2) ∧
  (∀ d, d ∈ post → Qle score d.2).
Proof.
intros Hanchor Hpaths Hdist Hrun.
unfold get_edlib_best in Hrun.
rewrite Hanchor in Hrun. simpl in Hrun. rewrite Hpaths in Hrun.
simpl in Hrun. rewrite Hdist in Hrun. simpl in Hrun.
destruct distances as [|d0 ds]; [discriminate|]. simpl in Hrun.
destruct (min_from_first snd ds d0) as (pre & post & Heq & Hpre & Hpost).
destruct (min_from snd d0 ds) as [best score].
inv_bind Hrun. injection Hrun as <-.
exists pre, best, score, post. split_and!; [done| |done..].
by apply index_Ok.
Qed.

(** X5.  At a node from which no walk of four hops exists the oracle has
  no answer, however many neighbors the node has. *)
Theorem oracle_needs_four_hops idx current_ neighbors ref_start r_en strand
  paths :
anchor env current_ = Ok (ref_start, r_en, strand) →
get_paths neighbors 4 current_ = Ok paths →
(∀ p, length p = 5%nat → head p = Some current_ →
      is_chain neighbors p = false) →
get_edlib_best env idx current_ neighbors
= Ok ([AllOppositeStrand; GraphIndex idx; CurrentNode current_;
       CandidatePaths []], None).
Proof.
intros Hanchor Hpaths Hnone.
assert (paths = []) as ->.
{ destruct paths as [|p paths]; [done|].
  assert (p ∈ p :: paths) as Hp by by left.
  apply (get_paths_walks neighbors 4 current_ _ p Hpaths) in Hp
    as (Hlen & Hlast & Hchain).
  rewrite Hnone in Hchain; [done|by rewrite length_rev|].
  rewrite <- (rev_involutive p) in Hlast.
  destruct (rev p) as [|x r]; [done|]. simpl in Hlast.
  rewrite last_snoc in Hlast. by injection Hlast as ->. }
assert (candidate_paths neighbors current_ = Ok []) as Hcand
  by (unfold candidate_paths; by rewrite Hpaths).
exact (get_edlib_best_spec env idx current_ neighbors _ _ _ [] []
         Hanchor Hcand eq_refl).
Qed.

(** X6.  A candidate that passes the strand filter with an empty composite
  sequence makes the oracle raise [ZeroDivisionError]: the width of its
  reference window is 0.  Shown for the first candidate. *)
Theorem oracle_divides_by_window idx current_ neighbors ref_start r_en
  strand path rest p0 p1 r_st' r_en' sq pl :
anchor env current_ = Ok (ref_start, r_en, strand) →
candidate_paths neighbors current_ = Ok (path :: rest) →
path !! 0%nat = Some p0 → path !! 1%nat = Some p1 →
anchor env p1 = Ok (r_st', r_en', strand) →
translate_nodes_into_sequence2 env (drop 1 path) = Ok sq →
(if strand =? -1 then reverse_complement env sq else sq) = [] →
prefix_length env p0 p1 = Ok pl →
get_edlib_best env idx current_ neighbors = Raise ZeroDivisionError.
Proof.
intros Hanchor Hpaths H0 H1 Hanchor1 Htr Hempty Hpl.
assert (score_path env ref_start strand path = Raise ZeroDivisionError)
  as Hscore.
{ unfold score_path. apply index_Ok in H0, H1.
  rewrite H1. cbn [mbind result_bind]. rewrite Hanchor1.
  cbn [mbind result_bind]. rewrite Z.eqb_refl. cbn [negb].
  rewrite Htr. cbn [mbind result_bind]. rewrite H0.
  cbn [mbind result_bind]. rewrite Hpl. cbn [mbind result_bind].
  rewrite Hempty. unfold true_div. cbn [length Z.of_nat].
  by rewrite Z.add_0_r, Z.sub_diag. }
unfold get_edlib_best. rewrite Hanchor. cbn [mbind result_bind].
rewrite Hpaths. cbn [mbind result_bind].
unfold edlib_distances. cbn [for_each]. rewrite Hscore. done.
Qed.
End OracleExtras.

(** ** The model's choice at a branch *)

Section ChoiceExtras.
Context {Score Loss Latent Weights : Type}.
Variable model : @learner Score Loss Latent Weights.

Local Abbreviation state := (@state Score Loss Latent Weights).

Lemma tensor_index_in_table (t : list Score) id :
in_table t id → ∃ x, tensor_index t id = Ok x.
Proof.
unfold in_table, tensor_index, index. intros Hid.
destruct (Z.leb_spec 0 id); destruct (Z.ltb_spec id (Z.of_nat (length t)));
  simpl; try lia.
- destruct (lookup_lt_is_Some_2 t (Z.to_nat id)) as [x ->]; [lia|eauto].
- destruct (Z.leb_spec (- Z.of_nat (length t)) id);
    destruct (Z.ltb_spec id 0); simpl; try lia.
  destruct (lookup_lt_is_Some_2 t (Z.to_nat (id + Z.of_nat (length t))))
    as [x ->]; [lia|eauto].
Qed.

Lemma tensor_index_out_of_table (t : list Score) id :
¬ in_table t id → tensor_index t id = Raise IndexError.
Proof.
unfold in_table, tensor_index. intros Hid.
destruct (Z.leb_spec 0 id); destruct (Z.ltb_spec id (Z.of_nat (length t)));
  simpl; try lia; try done;
  destruct (Z.leb_spec (- Z.of_nat (length t)) id);
  destruct (Z.ltb_spec id 0); simpl; try lia; done.
Qed.

Lemma tensor_index_raises (t : list Score) id e :
tensor_index t id = Raise e → e = IndexError ∧ ¬ in_table t id.
Proof.
intros H. destruct (decide (in_table t id)) as [Hin|Hout].
- destruct (tensor_index_in_table t id Hin) as [x Hx]. congruence.
- rewrite (tensor_index_out_of_table t id Hout) in H. by injection H as <-.
Qed.

Lemma tensor_gather_loop (t : list Score) ids : ∀ acc,
match for_each ids (fun acc i => x ← tensor_index t i; Ok (acc ++ [x])) acc
with
| Ok r => length r = (length acc + length ids)%nat ∧ Forall (in_table t) ids
| Raise e => e = IndexError ∧ ¬ Forall (in_table t) ids
end.
Proof.
induction ids as [|id ids IH]; intros acc; simpl.
- split; [lia|constructor].
- destruct (tensor_index t id) as [x|e] eqn:Hid; simpl.
  + assert (in_table t id) as Hin.
    { destruct (decide (in_table t id)) as [|Hout]; [done|].
      rewrite (tensor_index_out_of_table t id Hout) in Hid. discriminate. }
    specialize (IH (acc ++ [x])).
    destruct (for_each ids _ (acc ++ [x])) as [r|e].
    * destruct IH as [Hlen Hall]. rewrite length_app in Hlen. simpl in Hlen.
      split; [lia|by constructor].
    * destruct IH as [-> Hall]. split; [done|].
      intros Hall'. apply Hall. by apply Forall_cons_1 in Hall' as [_ ?].
  + apply tensor_index_raises in Hid as [-> Hout]. split; [done|].
    intros Hall. by apply Forall_cons_1 in Hall as [? _].
Qed.

Lemma argmax_from_bound (xs : list Score) : ∀ best_i best i,
(best_i < i)%nat → (argmax_from model best_i best i xs < i + length xs)%nat.
Proof.
induction xs as [|x xs IH]; intros best_i best i Hlt; simpl; [lia|].
destruct (score_ltb model best x).
- specialize (IH i x (S i)). lia.
- specialize (IH best_i best (S i)). lia.
Qed.

Lemma topk1_bound (actions : list Score) i :
topk1 model actions = Ok i → (i < length actions)%nat.
Proof.
destruct actions as [|x xs]; [discriminate|]. intros [= <-].
pose proof (argmax_from_bound xs 0%nat x 1%nat). simpl. lia.
Qed.

(** X7.  Whenever the model's choice is made, it is one of the neighbors:
  there is one score per neighbor, and the position [torch.topk] returns
  lies within the neighbor list. *)
Theorem model_choice_is_neighbor ns (s : state) actions i choice :
model_choice model ns s = Ok (actions, i, choice) →
length actions = length ns ∧ ns !! i = Some choice ∧ choice ∈ ns.
Proof.
intros H. apply model_choice_inv in H as (pa & _ & Hgather & _ & Hi).
split_and!; [|done|by eapply list_elem_of_lookup_2].
unfold tensor_gather in Hgather.
pose proof (tensor_gather_loop pa ns []) as Hloop.
rewrite Hgather in Hloop. by destruct Hloop.
Qed.

(** X8.  With a score table at hand and at least one neighbor, the choice
  is made exactly when every neighbor id lies within the table, counting
  negative ids from its end; otherwise the lookup of the scores raises
  [IndexError]. *)
Theorem model_choice_needs_ids_in_table ns (s : state) pa :
predict_actions s = Some pa → ns ≠ [] →
(Forall (in_table pa) ns →
 ∃ actions i choice, model_choice model ns s = Ok (actions, i, choice)) ∧
(¬ Forall (in_table pa) ns → model_choice model ns s = Raise IndexError).
Proof.
intros Hpa Hne. unfold model_choice, tensor_gather. rewrite Hpa.
pose proof (tensor_gather_loop pa ns []) as Hloop.
destruct (for_each ns _ []) as [actions|e]; simpl.
- destruct Hloop as [Hlen Hall]. split; [|done]. intros _.
  destruct actions as [|x xs]; [by destruct ns|].
  pose proof (topk1_bound (x :: xs) _ eq_refl) as Hi.
  simpl topk1. cbn [mbind result_bind]. unfold index.
  destruct (lookup_lt_is_Some_2 ns (argmax_from model 0%nat x 1%nat xs))
    as [choice ->]; [simpl in *; lia|].
  eauto.
- destruct Hloop as [-> Hall]. split; [done|by intros _].
Qed.

Lemma argmax_from_maximal (xs : list Score) :
(∀ a, score_ltb model a a = false) →
(∀ a b c, score_ltb model a b = true → score_ltb model a c = false →
          score_ltb model b c = false) →
∀ pre best_i best,
  pre !! best_i = Some best →
  (∀ y, y ∈ pre → score_ltb model best y = false) →
  ∃ x, (pre ++ xs) !! argmax_from model best_i best (length pre) xs = Some x ∧
       ∀ y, y ∈ pre ++ xs → score_ltb model x y = false.
Proof.
intros Hirr Hneg.
induction xs as [|x xs IH]; intros pre best_i best Hbest Hmax; simpl.
- exists best. rewrite app_nil_r. by split.
- destruct (score_ltb model best x) eqn:Hlt.
  + destruct (IH (pre ++ [x]) (length pre) x) as (m & Hm & Hall).
    * by rewrite lookup_app_r, Nat.sub_diag by lia.
    * intros y [Hy|Hy%list_elem_of_singleton]%elem_of_app.
      -- eapply Hneg; [exact Hlt|by apply Hmax].
      -- by rewrite Hy.
    * exists m. rewrite length_app, Nat.add_1_r in Hm.
      by rewrite (cons_middle x), app_assoc.
  + destruct (IH (pre ++ [x]) best_i best) as (m & Hm & Hall).
    * by apply lookup_app_l_Some.
    * intros y [Hy|Hy%list_elem_of_singleton]%elem_of_app;
        [by apply Hmax|by rewrite Hy].
    * exists m. rewrite length_app, Nat.add_1_r in Hm.
      by rewrite (cons_middle x), app_assoc.
Qed.

(** X9.  When the comparison of scores is irreflexive and, from [a < b] and
  not [a < c], yields not [b < c], as [<] on numbers does, the position
  chosen holds a largest score: no score of the row is greater. *)
Theorem topk1_is_maximal (actions : list Score) i :
(∀ a, score_ltb model a a = false) →
(∀ a b c, score_ltb model a b = true → score_ltb model a c = false →
          score_ltb model b c = false) →
topk1 model actions = Ok i →
∃ x, actions !! i = Some x ∧
     ∀ y, y ∈ actions → score_ltb model x y = false.
Proof.
intros Hirr Hneg. destruct actions as [|a xs]; [discriminate|].
intros [= <-].
destruct (argmax_from_maximal xs Hirr Hneg [a] 0%nat a) as (x & Hx & Hall).
- done.
- intros y ->%list_elem_of_singleton. apply Hirr.
- by exists x.
Qed.
End ChoiceExtras.

(** ** The walk as a whole *)

Lemma complement_neq n : complement n ≠ n.
Proof.
  unfold complement. intros H.
  apply (f_equal (Z.lxor n)) in H.
  rewrite <- Z.lxor_assoc, Z.lxor_nilpotent, Z.lxor_0_l in H. discriminate.
Qed.

Lemma complement_swap n m : complement n = m ↔ n = complement m.
Proof.
  split; intros H.
  - by rewrite <- H, complement_involutive.
  - by rewrite H, complement_involutive.
Qed.

Lemma is_chain_snoc neighbors l a b :
  is_chain neighbors (l ++ [a]) = true → is_edge neighbors a b = true →
  is_chain neighbors ((l ++ [a]) ++ [b]) = true.
Proof.
  intros Hchain Hedge. induction l as [|x l IH]; simpl.
  - by rewrite Hedge.
  - simpl in Hchain. destruct (l ++ [a]) as [|y r] eqn:Hl.
    { by destruct l. }
    simpl in *. apply andb_true_iff in Hchain as [-> Hr]. by apply IH.
Qed.

Section WalkFacts.
Context {Score Loss Latent Weights : Type}.
Variable model : @learner Score Loss Latent Weights.
Variable env : oracle_env.
Variable idx : Z.
Variable neighbors : adjacency.
Variable mode : string.

Local Abbreviation state := (@state Score Loss Latent Weights).
Local Abbreviation step := (step model env idx neighbors mode).
Local Abbreviation loop := (loop model env idx neighbors mode).
Local Abbreviation process := (process model env idx neighbors mode).

(** Every pass appends the current node to the walk, and marks it and its
  virtual pair unless it was marked, in which case the pass breaks. *)
Lemma step_shape (s : state) :
walk (flow_state (step s)) = walk s ++ [current s] ∧
((current s ∈ visited s ∧ visited (flow_state (step s)) = visited s ∧
  step s = Break (flow_state (step s))) ∨
 ((current s ∉ visited s) ∧
  visited (flow_state (step s))
  = visited s ∪ {[current s]} ∪ {[complement (current s)]})).
Proof.
destruct (step_cases model env idx neighbors mode s) as [[Hin H]|[Hout H]].
- rewrite H. simpl. split; [done|]. by left.
- assert (walk (flow_state (step s)) = walk s ++ [current s] ∧
          visited (flow_state (step s))
          = visited s ∪ {[current s]} ∪ {[complement (current s)]})
    as [Hw Hv]; [|split; [done|by right]].
  destruct (neighbors !! current s) as [[|n [|n' ns]]|] eqn:Hns;
    rewrite H; try done.
  clear H.
  destruct (run_model_frame model (mark_visited (append_walk s)))
    as (_ & Hv & Hw & _).
  destruct (branch_cases model env idx neighbors mode (n :: n' :: ns)
              (mark_visited (append_walk s)))
    as [[e H]|[(? & ? & ? & ? & _ & _ & H)|(a & i & c & b & _ & Ho & H)]];
    rewrite H; simpl; try by rewrite Hv, Hw.
  match goal with
  | |- context [sequential_update model mode ?l ?t] =>
      destruct (sequential_update_frame model mode l t)
        as (_ & -> & -> & _)
  end.
  simpl. by rewrite Hv, Hw.
Qed.

Lemma walk_invariant_init w start :
walk_invariant neighbors start (initial_state model w start).
Proof.
destruct (initial_state_entry model w start) as [Hc Hv].
assert (walk (initial_state model w start) = []) as Hw
  by (unfold initial_state; by case_decide).
unfold walk_invariant. rewrite Hc, Hv, Hw. simpl.
split_and!; try done.
- constructor.
- intros n Hn. by apply elem_of_nil in Hn.
- intros n. split; [by intros ?%not_elem_of_empty|].
  by intros [?%elem_of_nil|?%elem_of_nil].
- intros n ->%list_elem_of_singleton. unfold walkable.
  apply elem_of_union. left. by apply elem_of_singleton.
Qed.

(** The walk with the current node appended and marked. *)
Lemma walk_invariant_mark start (s : state) :
walk_invariant neighbors start s → current s ∉ visited s →
NoDup (walk s ++ [current s]) ∧
(∀ n, n ∈ walk s ++ [current s] →
      complement n ∉ walk s ++ [current s]) ∧
(∀ n, n ∈ visited s ∪ {[current s]} ∪ {[complement (current s)]} ↔
      n ∈ walk s ++ [current s] ∨ complement n ∈ walk s ++ [current s]).
Proof.
intros (Hnd & Hpair & Hvis & _) Hout.
assert (current s ∉ walk s) as Hcw by (intros ?; apply Hout, Hvis; by left).
assert (complement (current s) ∉ walk s) as Hccw
  by (intros ?; apply Hout, Hvis; by right).
split_and!.
- apply NoDup_app. split_and!; [done| |apply NoDup_singleton].
  intros x Hx ->%list_elem_of_singleton. done.
- intros n [Hn| ->%list_elem_of_singleton]%elem_of_app
           [Hc|Hc%list_elem_of_singleton]%elem_of_app.
  + by apply (Hpair n).
  + apply complement_swap in Hc. by rewrite <- Hc in Hccw.
  + done.
  + by apply complement_neq in Hc.
- intros n. rewrite !elem_of_union, !elem_of_singleton, !elem_of_app,
    !list_elem_of_singleton, Hvis, complement_swap. tauto.
Qed.

Lemma walk_invariant_step start (s s' : state) :
walk_invariant neighbors start s → step s = Continue s' →
walk_invariant neighbors start s'.
Proof.
intros Hinv Hstep.
pose proof (step_Continue_inv model env idx neighbors mode s s' Hstep)
  as (Hout & Hv & Hw & ns & Hns & Hin).
destruct (walk_invariant_mark start s Hinv Hout) as (Hnd & Hpair & Hvis).
destruct Hinv as (_ & _ & _ & Hchain & Hhead & Hwalkable).
unfold walk_invariant. rewrite Hv, Hw. split_and!; try done.
- apply is_chain_snoc; [done|]. apply is_edge_spec. eauto.
- rewrite <- Hhead. by destruct (walk s).
- intros n [Hn| ->%list_elem_of_singleton]%elem_of_app; [by apply Hwalkable|].
  by eapply walkable_neighbor.
Qed.

Lemma walk_invariant_end start (s : state) :
walk_invariant neighbors start s →
(∀ s', step s ≠ Continue s') →
walk_result neighbors start (flow_state (step s)).
Proof.
intros Hinv Hend.
destruct (step_shape s) as [Hw Hcases].
pose proof Hinv as (Hnd & Hpair & Hvis & Hchain & Hhead & Hwalkable).
unfold walk_result. rewrite Hw. split_and!; try done.
- by exists (walk s), (current s).
- destruct Hcases as [(Hin & -> & _)|(Hout & ->)].
  + intros n. rewrite Hvis, !elem_of_app, !list_elem_of_singleton.
    apply Hvis in Hin. split; [tauto|].
    intros [[?| ->]|[?|Hc]]; try tauto.
    apply complement_swap in Hc. rewrite Hc.
    destruct Hin as [Hin|Hin]; [right|by left].
    by rewrite complement_involutive.
  + by apply (walk_invariant_mark start s Hinv Hout).
Qed.

Lemma loop_walk_result start fuel : ∀ (s : state),
walk_invariant neighbors start s →
¬ exhausted (loop fuel s) →
walk_result neighbors start (run_state (loop fuel s)).
Proof.
induction fuel as [|fuel IH]; simpl; intros s Hinv Hend; [by destruct Hend|].
destruct (step s) as [s'|s'|e s'] eqn:Hstep.
- apply IH; [by eapply walk_invariant_step|done].
- pose proof (walk_invariant_end start s Hinv) as H.
  rewrite Hstep in H. apply H. intros ?. discriminate.
- pose proof (walk_invariant_end start s Hinv) as H.
  rewrite Hstep in H. apply H. intros ?. discriminate.
Qed.

(** X10.  When the loop is left, by a break or by an exception, the walk
  is a chain of edges of the adjacency map that begins at the start
  node: each of its nodes but the last is followed by one of its own
  neighbors. *)
Theorem walk_follows_edges w start fuel :
¬ exhausted (loop fuel (initial_state model w start)) →
is_chain neighbors (walk (run_state (loop fuel (initial_state model w start))))
= true ∧
head (walk (run_state (loop fuel (initial_state model w start))))
= Some start.
Proof.
intros Hend.
destruct (loop_walk_result start fuel _ (walk_invariant_init w start) Hend)
  as (_ & _ & ? & ? & _).
done.
Qed.

(** X11.  When the loop is left, the walk without its last node holds no
  node twice and no node together with its virtual pair; only the last
  node can be a revisit. *)
Theorem walk_never_repeats w start fuel :
¬ exhausted (loop fuel (initial_state model w start)) →
∃ before last_,
  walk (run_state (loop fuel (initial_state model w start)))
  = before ++ [last_] ∧
  NoDup before ∧
  ∀ n, n ∈ before → complement n ∉ before.
Proof.
intros Hend.
destruct (loop_walk_result start fuel _ (walk_invariant_init w start) Hend)
  as (? & _).
done.
Qed.

(** X12.  When the loop is left, the visited set holds exactly the nodes of
  the walk and their virtual pairs. *)
Theorem visited_is_walk_and_pairs w start fuel n :
¬ exhausted (loop fuel (initial_state model w start)) →
n ∈ visited (run_state (loop fuel (initial_state model w start))) ↔
n ∈ walk (run_state (loop fuel (initial_state model w start))) ∨
complement n ∈ walk (run_state (loop fuel (initial_state model w start))).
Proof.
intros Hend.
destruct (loop_walk_result start fuel _ (walk_invariant_init w start) Hend)
  as (_ & Hvis & _).
apply Hvis.
Qed.

(** X13.  The loop always ends: [process] comes back for every input, and
  a walk has at most one node more than there are walkable nodes, the
  start node and the entries of the adjacency lists. *)
Theorem walk_is_bounded w num_nodes pred start fuel :
is_Some (process w num_nodes pred) ∧
(¬ exhausted (loop fuel (initial_state model w start)) →
 (length (walk (run_state (loop fuel (initial_state model w start))))
  ≤ S (size (walkable neighbors start)))%nat).
Proof.
split; [apply process_returns|].
intros Hend.
destruct (loop_walk_result start fuel _ (walk_invariant_init w start) Hend)
  as ((before & c & Hw & Hnd & _) & _ & _ & _ & Hwalkable).
rewrite Hw, length_app. simpl.
rewrite <- (size_list_to_set (C:=gset Z) before) by done.
assert (list_to_set before ⊆ walkable neighbors start) as Hsub.
{ intros n Hn. apply elem_of_list_to_set in Hn. apply Hwalkable.
  rewrite Hw. apply elem_of_app. by left. }
apply subseteq_size in Hsub. lia.
Qed.
End WalkFacts.

(** ** Weights, model calls and the returned pair *)

Section RunFacts.
Context {Score Loss Latent Weights : Type}.
Variable model : @learner Score Loss Latent Weights.
Variable env : oracle_env.
Variable idx : Z.
Variable neighbors : adjacency.
Variable mode : string.

Local Abbreviation state := (@state Score Loss Latent Weights).
Local Abbreviation step := (step model env idx neighbors mode).
Local Abbreviation loop := (loop model env idx neighbors mode).
Local Abbreviation process := (process model env idx neighbors mode).
Local Abbreviation after_loop := (after_loop model mode).

(** The state a pass leaves, in each of its cases. *)
Lemma step_effects (s : state) :
let s0 := mark_visited (append_walk s) in
let s1 := run_model model s0 in
flow_state (step s) = append_walk s ∨
flow_state (step s) = s0 ∨
(∃ n, neighbors !! current s = Some [n] ∧
      flow_state (step s) = set_current n s0) ∨
(neighbors !! current s = None ∧
 step s = Abort (KeyError (current s)) (emit [Print_node (current s)] s0)) ∨
(∃ ns, neighbors !! current s = Some ns ∧ (2 ≤ length ns)%nat ∧
   ((∃ e, step s = Abort e s1) ∨
    (∃ actions i choice diag,
        model_choice model ns s1 = Ok (actions, i, choice) ∧
        get_edlib_best env idx (current s) neighbors = Ok (diag, None) ∧
        step s = Break (emit (map Print_oracle diag ++
                              [Print_prediction (previous (walk s0))
                                 (current s) ns actions choice None]) s1)) ∨
    (∃ actions i choice best,
        model_choice model ns s1 = Ok (actions, i, choice) ∧
        get_edlib_best env idx (current s) neighbors = Ok ([], Some best) ∧
        step s =
          Continue
            (sequential_update model mode (criterion model actions i)
               (record_branch model (criterion model actions i) choice best
                  (emit [Print_prediction (previous (walk s0)) (current s)
                           ns actions choice (Some best)] s1)))))).
Proof.
intros s0 s1. subst s1 s0.
destruct (step_cases model env idx neighbors mode s) as [[_ H]|[_ H]].
{ left. by rewrite H. }
destruct (neighbors !! current s) as [[|n [|n' ns]]|] eqn:Hns.
- right; left. by rewrite H.
- right; right; left. exists n. by rewrite H.
- do 4 right. exists (n :: n' :: ns). split; [done|]. split; [simpl; lia|].
  rewrite H.
  destruct (branch_cases model env idx neighbors mode (n :: n' :: ns)
              (mark_visited (append_walk s)))
    as [[e Hb]|[(a & i & c & d & Hc & Ho & Hb)|(a & i & c & b & Hc & Ho & Hb)]];
    rewrite Hb.
  + left. by exists e.
  + right; left. by exists a, i, c, d.
  + right; right. by exists a, i, c, b.
- do 3 right; left. by split.
Qed.

Lemma loop_preserves (P : state → Prop) :
(∀ s, P s → P (flow_state (step s))) →
∀ fuel s, P s → P (run_state (loop fuel s)).
Proof.
intros Hstep. induction fuel as [|fuel IH]; simpl; intros s Hs; [done|].
specialize (Hstep s Hs). destruct (step s); simpl in *; auto.
Qed.

(** How a call that came back went. *)
Lemma process_inv w num_nodes pred o :
process w num_nodes pred = Some o →
(start_nodes num_nodes pred = [] ∧
 o = {| events := []; final_weights := w; returned := Raise IndexError |}) ∨
∃ start rest fuel,
  start_nodes num_nodes pred = start :: rest ∧
  ((∃ s, loop fuel (initial_state model w start) = Finished s ∧
         o = after_loop s) ∨
   (∃ e s, loop fuel (initial_state model w start) = Raised e s ∧
           o = {| events := output s; final_weights := weights s;
                  returned := Raise e |})).
Proof.
unfold_process.
destruct (start_nodes num_nodes pred) as [|start rest] eqn:Hstart.
- intros [= <-]. by left.
- intros H. right. exists start, rest, (S (size (walkable neighbors start))).
  split; [done|].
  destruct (loop _ _) as [s|e s|s]; [left|right|discriminate].
  + injection H as <-. by exists s.
  + injection H as <-. by exists e, s.
Qed.

Lemma step_weights w (s : state) :
weights_invariant model mode w s →
weights_invariant model mode w (flow_state (step s)).
Proof.
unfold weights_invariant. intros Hs.
destruct (run_model_frame model (mark_visited (append_walk s)))
  as (_ & _ & _ & Hl & _ & _ & _ & Hw).
destruct (step_effects s)
  as [-> | [-> | [(n & _ & ->) | [(_ & ->) | (ns & _ & _ & Hb)]]]];
  try done.
destruct Hb
  as [[e ->] | [(a & i & c & d & _ & _ & ->) | (a & i & c & b & _ & _ & ->)]];
  simpl; try (by rewrite Hl, Hw).
unfold sequential_update.
destruct (bool_decide (kind model = SequentialModel) && training mode);
  simpl; rewrite ?Hl, ?Hw; simpl; [|done].
by rewrite fold_left_app, Hs.
Qed.

Lemma loop_weights w start fuel :
weights_invariant model mode w
  (run_state (loop fuel (initial_state model w start))).
Proof.
apply (loop_preserves (weights_invariant model mode w) (step_weights w)).
unfold weights_invariant, initial_state. case_decide; simpl; by case_match.
Qed.

(** X14.  Outside training mode a call neither touches the optimizer nor
  changes the weights, however it ends. *)
Theorem evaluation_updates_nothing w num_nodes pred o :
training mode = false →
process w num_nodes pred = Some o →
final_weights o = w ∧ optimizer_events (events o) = [].
Proof.
intros Hmode Hrun.
apply process_inv in Hrun
  as [[_ ->]|(start & rest & fuel & _ & [(s & Hloop & ->)|(e & s & Hloop & ->)])];
  [done|..].
- pose proof (loop_weights w start fuel) as Hw.
  pose proof (loop_bookkeeping model env idx neighbors mode fuel _
                (initial_state_bookkeeping model mode w start)) as Hb.
  rewrite Hloop in Hw, Hb. simpl in Hw. destruct Hb as (_ & _ & _ & Ho).
  unfold weights_invariant in Hw. unfold_after_loop.
  rewrite Hmode, andb_false_r in *. by simpl.
- pose proof (loop_weights w start fuel) as Hw.
  pose proof (loop_bookkeeping model env idx neighbors mode fuel _
                (initial_state_bookkeeping model mode w start)) as Hb.
  rewrite Hloop in Hw, Hb. simpl in Hw. destruct Hb as (_ & _ & _ & Ho).
  unfold weights_invariant in Hw.
  rewrite Hmode, andb_false_r in *. by simpl.
Qed.

(** X15.  In training mode, a call that returns leaves the weights
  updated once per loss of the returned history, in order, under the
  sequential model, and updated once, on the sum of those losses, under
  the graph-embedding model. *)
Theorem training_updates_weights w num_nodes pred o losses accuracy_ :
training mode = true →
process w num_nodes pred = Some o →
returned o = Ok (losses, accuracy_) →
match kind model with
| SequentialModel =>
    final_weights o = fold_left (optimizer_update model) losses w
| GCNModel =>
    ∃ l ls, losses = l :: ls ∧
            final_weights o
            = optimizer_update model w (fold_left (loss_add model) ls l)
| OtherModel => final_weights o = w
end.
Proof.
intros Hmode Hrun Hret.
apply process_inv in Hrun
  as [[_ ->]|(start & rest & fuel & _ & [(s & Hloop & ->)|(e & s & Hloop & ->)])];
  [done| |done].
pose proof (loop_weights w start fuel) as Hw.
pose proof (loop_bookkeeping model env idx neighbors mode fuel _
              (initial_state_bookkeeping model mode w start)) as Hb.
rewrite Hloop in Hw, Hb. simpl in Hw. destruct Hb as (_ & Hsum & _ & _).
unfold weights_invariant in Hw. revert Hret. unfold_after_loop.
rewrite Hmode in *.
destruct (kind model) eqn:Hkind; simpl in *.
- destruct (total_loss s) as [|l] eqn:Ht; simpl; [done|].
  intros Hret. inv_bind Hret. injection Hret as <- _.
  destruct (loss_list s) as [|l0 ls]; [done|].
  rewrite sum_losses_cons in Hsum. injection Hsum as ->.
  exists l0, ls. by rewrite Hw.
- intros Hret. inv_bind Hret. by injection Hret as <- _.
- intros Hret. inv_bind Hret. by injection Hret as _ _.
Qed.

(** X16.  A call that returns a pair returns at least one loss, as many
  losses as the accuracy has in its denominator, and an accuracy between
  0 and 1. *)
Theorem returned_accuracy_is_a_ratio w num_nodes pred o losses accuracy_ :
process w num_nodes pred = Some o →
returned o = Ok (losses, accuracy_) →
∃ correct_ : nat,
  (correct_ ≤ length losses)%nat ∧ (0 < length losses)%nat ∧
  accuracy_ = Qdiv (inject_Z (Z.of_nat correct_))
                   (inject_Z (Z.of_nat (length losses))) ∧
  Qle 0 accuracy_ ∧ Qle accuracy_ 1.
Proof.
intros Hrun Hret.
apply process_inv in Hrun
  as [[_ ->]|(start & rest & fuel & _ & [(s & Hloop & ->)|(e & s & Hloop & ->)])];
  [done| |done].
pose proof (loop_bookkeeping model env idx neighbors mode fuel _
              (initial_state_bookkeeping model mode w start)) as Hb.
rewrite Hloop in Hb. destruct Hb as (Hlen & _ & Hle & _).
assert (returned (accuracy_and_return s) = Ok (losses, accuracy_)) as Hacc.
{ revert Hret. unfold_after_loop.
  destruct (bool_decide (kind model = GCNModel) && training mode); [|done].
  simpl. by destruct (total_loss s). }
simpl in Hacc. inv_bind Hacc. injection Hacc as <- <-.
apply true_div_Ok in Hbind as [Hne ->]. rewrite <- Hlen.
exists (correct s). split_and!; [done|lia|done| |].
- apply Qle_shift_div_l.
  + change 0%Q with (inject_Z 0). rewrite <- Zlt_Qlt. lia.
  + rewrite Qmult_0_l. change 0%Q with (inject_Z 0). rewrite <- Zle_Qle. lia.
- apply Qle_shift_div_r.
  + change 0%Q with (inject_Z 0). rewrite <- Zlt_Qlt. lia.
  + rewrite Qmult_1_l. rewrite <- Zle_Qle. lia.
Qed.

(** On a graph without branches nothing is ever recorded, and the only
  exception of the loop is the [KeyError] of a node without an entry. *)
Lemma linear_loop fuel : ∀ (s : state),
(∀ k ns, neighbors !! k = Some ns → (length ns ≤ 1)%nat) →
total s = 0%nat → total_loss s = IntZero →
match loop fuel s with
| Finished s' => total s' = 0%nat ∧ total_loss s' = IntZero
| Raised e _ => ∃ k, e = KeyError k ∧ neighbors !! k = None
| Exhausted _ => True
end.
Proof.
intros s Hlin. revert s.
induction fuel as [|fuel IH]; simpl; intros s Hn Ht; [done|].
destruct (step_effects s)
  as [H | [H | [(n & _ & H) | [(Hnone & H) | (ns & Hns & Hlen & _)]]]].
- destruct (step s) as [s'|s'|e s'] eqn:Hstep; simpl in H; subst s'.
  + by apply IH.
  + done.
  + destruct (step_cases model env idx neighbors mode s) as [[_ H]|[_ H]];
      [congruence|].
    destruct (neighbors !! current s) as [[|? [|? ?]]|] eqn:Hns;
      rewrite H in Hstep; try discriminate.
    * specialize (Hlin _ _ Hns). simpl in Hlin. lia.
    * injection Hstep as <- _. by exists (current s).
- destruct (step s) as [s'|s'|e s'] eqn:Hstep; simpl in H; subst s'.
  + by apply IH.
  + done.
  + destruct (step_cases model env idx neighbors mode s) as [[_ H]|[_ H]];
      [congruence|].
    destruct (neighbors !! current s) as [[|? [|? ?]]|] eqn:Hns;
      rewrite H in Hstep; try discriminate.
    * specialize (Hlin _ _ Hns). simpl in Hlin. lia.
    * injection Hstep as <- _. by exists (current s).
- destruct (step s) as [s'|s'|e s'] eqn:Hstep; simpl in H; subst s'.
  + by apply IH.
  + done.
  + destruct (step_cases model env idx neighbors mode s) as [[_ H]|[_ H]];
      [congruence|].
    destruct (neighbors !! current s) as [[|? [|? ?]]|] eqn:Hns;
      rewrite H in Hstep; try discriminate.
    * specialize (Hlin _ _ Hns). simpl in Hlin. lia.
    * injection Hstep as <- _. by exists (current s).
- rewrite H. by exists (current s).
- specialize (Hlin _ _ Hns). lia.
Qed.

(** X17.  On a graph in which no node has more than one neighbor a call
  never returns a pair.  It ends with [IndexError] when there is no
  start node, with the [KeyError] of a node without an entry, with
  [AttributeError] under the graph-embedding model in training mode, and
  with [ZeroDivisionError] otherwise. *)
Theorem linear_graph_never_returns w num_nodes pred o :
(∀ k ns, neighbors !! k = Some ns → (length ns ≤ 1)%nat) →
process w num_nodes pred = Some o →
returned o = Raise IndexError ∨
(∃ k, returned o = Raise (KeyError k) ∧ neighbors !! k = None) ∨
(returned o = Raise AttributeError ∧
 kind model = GCNModel ∧ training mode = true) ∨
(returned o = Raise ZeroDivisionError ∧
 ¬ (kind model = GCNModel ∧ training mode = true)).
Proof.
intros Hlin Hrun.
apply process_inv in Hrun
  as [[_ ->]|(start & rest & fuel & _ & [(s & Hloop & ->)|(e & s & Hloop & ->)])];
  [by left|..].
- pose proof (linear_loop fuel (initial_state model w start) Hlin) as H.
  rewrite Hloop in H. destruct H as [Hn Ht].
  { unfold initial_state. by case_decide. }
  { unfold initial_state. by case_decide. }
  unfold_after_loop.
  destruct (bool_decide (kind model = GCNModel) && training mode) eqn:Hgcn.
  + apply andb_true_iff in Hgcn as [Hk ?]. apply bool_decide_eq_true in Hk.
    do 2 right; left. simpl. by rewrite Ht.
  + do 3 right. simpl. rewrite Hn. simpl. split; [done|].
    intros [Hk Hm]. rewrite Hm, andb_true_r in Hgcn.
    by apply bool_decide_eq_false in Hgcn.
- pose proof (linear_loop fuel (initial_state model w start) Hlin) as H.
  rewrite Hloop in H. destruct H as (k & -> & Hk).
  { unfold initial_state. by case_decide. }
  { unfold initial_state. by case_decide. }
  right; left. by exists k.
Qed.

Lemma run_model_other (s : state) :
kind model ≠ SequentialModel → run_model model s = s.
Proof. unfold run_model. by case_decide. Qed.

(** X18.  With a model that is neither of the two classes a call never
  returns a pair either, and it leaves the weights as they were: the
  first branch ends it with [UnboundLocalError], and without a branch
  the accuracy is a division by zero. *)
Theorem other_model_never_returns w num_nodes pred o :
kind model = OtherModel →
process w num_nodes pred = Some o →
(∃ e, returned o = Raise e) ∧ final_weights o = w.
Proof.
intros Hkind Hrun.
assert (∀ s : state,
          predict_actions s = None ∧ total s = 0%nat ∧ weights s = w →
          (predict_actions (flow_state (step s)) = None ∧
           total (flow_state (step s)) = 0%nat ∧
           weights (flow_state (step s)) = w)) as Hstep.
{ intros s (Hp & Hn & Hw).
  destruct (step_effects s)
    as [-> | [-> | [(n & _ & ->) | [(_ & ->) | (ns & _ & _ & Hb)]]]];
    try done.
  rewrite run_model_other in Hb by congruence.
  destruct Hb
    as [[e ->] | [(a & i & c & d & Hc & _ & _) | (a & i & c & b & Hc & _ & _)]];
    [done|..]; unfold model_choice in Hc; simpl in Hc;
    rewrite Hp in Hc; discriminate. }
apply process_inv in Hrun
  as [[_ ->]|(start & rest & fuel & _ & [(s & Hloop & ->)|(e & s & Hloop & ->)])];
  [by eauto|..].
- pose proof (loop_preserves _ Hstep fuel (initial_state model w start)) as H.
  rewrite Hloop in H. simpl in H. destruct H as (_ & Hn & Hw).
  { unfold initial_state. case_decide; [congruence|done]. }
  unfold_after_loop.
  rewrite bool_decide_eq_false_2 by congruence. simpl. rewrite Hn. simpl.
  split; [eauto|done].
- pose proof (loop_preserves _ Hstep fuel (initial_state model w start)) as H.
  rewrite Hloop in H. simpl in H. destruct H as (_ & _ & Hw).
  { unfold initial_state. case_decide; [congruence|done]. }
  simpl. eauto.
Qed.

Lemma model_events_app (xs ys : list (@event Score Loss)) :
model_events (xs ++ ys) = model_events xs ++ model_events ys.
Proof. apply filter_app. Qed.

(** X19.  Under the graph-embedding model a call with a start node calls
  the model exactly twice, to embed and to classify, and every row of
  scores it prints at a branch is read from the one table computed then,
  with the weights the call began with. *)
Theorem gcn_scores_are_computed_once w num_nodes pred o :
kind model = GCNModel →
start_nodes num_nodes pred ≠ [] →
process w num_nodes pred = Some o →
model_events (events o) = [Model_embed; Model_classify] ∧
∀ previous_ current_ ns actions choice truth,
  Print_prediction previous_ current_ ns actions choice truth ∈ events o →
  tensor_gather (classify model w (embed model w (zeros model))) ns
  = Ok actions.
Proof.
intros Hkind Hstart Hrun.
set (table := classify model w (embed model w (zeros model))).
set (P := fun s : state =>
  predict_actions s = Some table ∧
  model_events (output s) = [Model_embed; Model_classify] ∧
  ∀ previous_ current_ ns actions choice truth,
    Print_prediction previous_ current_ ns actions choice truth ∈ output s →
    tensor_gather table ns = Ok actions).
assert (∀ s, P s → P (flow_state (step s))) as Hstep.
{ unfold P. intros s (Hp & Hm & Hall).
  destruct (step_effects s)
    as [-> | [-> | [(n & _ & ->) | [(_ & ->) | (ns & _ & _ & Hb)]]]];
    try done.
  - simpl. split_and!; [done|by rewrite model_events_app, Hm|].
    intros ? ? ? ? ? ? [?|Hin]%elem_of_app; [by eapply Hall|].
    by apply list_elem_of_singleton in Hin.
  - rewrite run_model_other in Hb by congruence.
    destruct Hb
      as [[e ->] | [(a & i & c & d & Hc & _ & ->) | (a & i & c & b & Hc & _ & ->)]];
      [done|..].
    + apply model_choice_inv in Hc as (pa & Hpa & Hg & _). simpl in Hpa.
      rewrite Hp in Hpa. injection Hpa as <-.
      simpl. split_and!; [done| |].
      * rewrite !model_events_app, Hm.
        assert (model_events (map (@Print_oracle Score Loss) d) = []) as ->
          by (by induction d).
        done.
      * intros ? ? ? ? ? ? [?|[Hin|Hin]%elem_of_app]%elem_of_app;
          [by eapply Hall| |].
        -- apply list_elem_of_fmap in Hin as (? & ? & _). discriminate.
        -- apply list_elem_of_singleton in Hin. by injection Hin as _ _ <- <- _ _.
    + apply model_choice_inv in Hc as (pa & Hpa & Hg & _). simpl in Hpa.
      rewrite Hp in Hpa. injection Hpa as <-.
      unfold sequential_update.
      rewrite bool_decide_eq_false_2 by congruence. simpl.
      split_and!; [done|by rewrite model_events_app, Hm|].
      intros ? ? ? ? ? ? [?|Hin]%elem_of_app; [by eapply Hall|].
      apply list_elem_of_singleton in Hin. by injection Hin as _ _ <- <- _ _. }
assert (P (initial_state model w (default 0 (head (start_nodes num_nodes pred)))))
  as Hinit.
{ unfold P, initial_state. rewrite decide_True by done. simpl.
  split_and!; [done..|].
  intros ? ? ? ? ? ? Hin. repeat (apply elem_of_cons in Hin as [Hin|Hin];
    [discriminate|]). by apply elem_of_nil in Hin. }
apply process_inv in Hrun
  as [[? _]|(start & rest & fuel & Hs & [(s & Hloop & ->)|(e & s & Hloop & ->)])];
  [done|..]; rewrite Hs in Hinit; simpl in Hinit.
- pose proof (loop_preserves P Hstep fuel _ Hinit) as H.
  rewrite Hloop in H. unfold P in H. simpl in H.
  destruct H as (_ & Hm & Hall).
  unfold_after_loop.
  destruct (bool_decide (kind model = GCNModel) && training mode);
    [|by split].
  simpl. destruct (total_loss s) as [|l]; simpl.
  + split; [by rewrite model_events_app, Hm|].
    intros ? ? ? ? ? ? [?|Hin]%elem_of_app; [by eapply Hall|].
    by apply list_elem_of_singleton in Hin.
  + split; [by rewrite !model_events_app, Hm|].
    intros ? ? ? ? ? ? [[?|Hin]%elem_of_app|Hin]%elem_of_app;
      [by eapply Hall| |].
    * by apply list_elem_of_singleton in Hin.
    * repeat (apply elem_of_cons in Hin as [Hin|Hin]; [discriminate|]).
      by apply elem_of_nil in Hin.
- pose proof (loop_preserves P Hstep fuel _ Hinit) as H.
  rewrite Hloop in H. unfold P in H. simpl in H.
  destruct H as (_ & Hm & Hall). by split.
Qed.

(** X20.  An exception of the oracle, such as the [KeyError] of a node
  without an entry met while looking ahead, ends the pass and the loop
  with that exception and without any print: the pass adds to the trace
  the model's forward call only, when the model is sequential. *)
Theorem oracle_exception_is_not_logged (s : state) ns actions i choice e :
current s ∉ visited s →
neighbors !! current s = Some ns → (2 ≤ length ns)%nat →
model_choice model ns (run_model model (mark_visited (append_walk s)))
= Ok (actions, i, choice) →
get_edlib_best env idx (current s) neighbors = Raise e →
∃ s', step s = Abort e s' ∧
      (∀ fuel, loop (S fuel) s = Raised e s') ∧
      output s' = output s ++
                  (if decide (kind model = SequentialModel)
                   then [Model_forward] else []).
Proof.
intros Hout Hns Hlen Hchoice Horacle.
exists (run_model model (mark_visited (append_walk s))).
assert (step s = Abort e (run_model model (mark_visited (append_walk s))))
  as Hstep.
{ destruct (step_cases model env idx neighbors mode s) as [[? _]|[_ H]];
    [done|].
  rewrite Hns in H. destruct ns as [|n [|n' ns]]; simpl in Hlen; try lia.
  rewrite H. unfold_branch. rewrite Hchoice.
  destruct (run_model_frame model (mark_visited (append_walk s)))
    as (Hcur & _). simpl in Hcur. by rewrite Hcur, Horacle. }
split_and!; [done|intros fuel; simpl; by rewrite Hstep|].
unfold run_model. case_decide; [|by rewrite app_nil_r].
by destruct (forward model _ _).
Qed.
End RunFacts.

(** ** Teacher forcing *)

Section NextNode.
Context {Score Loss Latent Weights : Type}.
Variable model : @learner Score Loss Latent Weights.
Variable env : oracle_env.
Variable idx : Z.
Variable neighbors : adjacency.
Variable mode : string.

(** Where a continuing pass goes: to the only neighbor, or to the
  oracle's. *)
Lemma step_next (s s' : @state Score Loss Latent Weights) :
step model env idx neighbors mode s = Continue s' →
∃ ns, neighbors !! current s = Some ns ∧
      (ns = [current s'] ∨
       ((2 ≤ length ns)%nat ∧
        get_edlib_best env idx (current s) neighbors
        = Ok ([], Some (current s')))).
Proof.
intros Hstep.
destruct (step_cases model env idx neighbors mode s) as [[_ H]|[_ H]];
  [congruence|].
destruct (neighbors !! current s) as [[|n [|n' ns]]|] eqn:Hns;
  rewrite H in Hstep; try discriminate.
- injection Hstep as <-. exists [n]. split; [done|]. by left.
- exists (n :: n' :: ns). split; [done|]. right. split; [simpl; lia|].
  destruct (branch_cases model env idx neighbors mode (n :: n' :: ns)
              (mark_visited (append_walk s)))
    as [[e Hb]|[(? & ? & ? & ? & _ & _ & Hb)|(a & i & c & b & _ & Ho & Hb)]];
    rewrite Hb in Hstep; try discriminate.
  injection Hstep as <-.
  match goal with
  | |- context [sequential_update model mode ?l ?t] =>
      destruct (sequential_update_frame model mode l t) as (-> & _)
  end.
  done.
Qed.
End NextNode.

Section TeacherForcing.
Context {Score1 Loss1 Latent1 Weights1 : Type}.
Context {Score2 Loss2 Latent2 Weights2 : Type}.
Variable model1 : @learner Score1 Loss1 Latent1 Weights1.
Variable model2 : @learner Score2 Loss2 Latent2 Weights2.
Variable env : oracle_env.
Variable idx : Z.
Variable neighbors : adjacency.
Variable mode1 mode2 : string.

(** X21.  Which way the walk goes does not depend on the model, its
  weights or the mode: two runs over the same graph with the same oracle
  that both make [k] passes from the same node with the same visited set
  stand on the same node afterwards, with the same walk behind them. *)
Theorem walk_does_not_depend_on_model k :
∀ (s1 s1' : @state Score1 Loss1 Latent1 Weights1)
  (s2 s2' : @state Score2 Loss2 Latent2 Weights2),
  current s1 = current s2 → visited s1 = visited s2 → walk s1 = walk s2 →
  passes model1 env idx neighbors mode1 k s1 = Some s1' →
  passes model2 env idx neighbors mode2 k s2 = Some s2' →
  current s1' = current s2' ∧ visited s1' = visited s2' ∧
  walk s1' = walk s2'.
Proof.
induction k as [|k IH]; simpl; intros s1 s1' s2 s2' Hc Hv Hw H1 H2.
- by injection H1 as <-; injection H2 as <-.
- destruct (step model1 env idx neighbors mode1 s1) as [t1| |] eqn:Hs1;
    try discriminate.
  destruct (step model2 env idx neighbors mode2 s2) as [t2| |] eqn:Hs2;
    try discriminate.
  apply (IH t1 s1' t2 s2'); try done.
  + destruct (step_next model1 env idx neighbors mode1 s1 t1 Hs1)
      as (ns1 & Hns1 & Hn1).
    destruct (step_next model2 env idx neighbors mode2 s2 t2 Hs2)
      as (ns2 & Hns2 & Hn2).
    rewrite Hc, Hns2 in Hns1. injection Hns1 as <-. rewrite Hc in Hn1.
    destruct Hn1 as [Hn1|[Hl1 Ho1]], Hn2 as [Hn2|[Hl2 Ho2]].
    * rewrite Hn1 in Hn2. by injection Hn2.
    * rewrite Hn1 in Hl2. simpl in Hl2. lia.
    * rewrite Hn2 in Hl1. simpl in Hl1. lia.
    * rewrite Ho1 in Ho2. by injection Ho2.
  + apply step_Continue_inv in Hs1 as (_ & -> & _).
    apply step_Continue_inv in Hs2 as (_ & -> & _). by rewrite Hc, Hv.
  + apply step_Continue_inv in Hs1 as (_ & _ & -> & _).
    apply step_Continue_inv in Hs2 as (_ & _ & -> & _). by rewrite Hc, Hw.
Qed.
End TeacherForcing.

(** ** Overlaps and suffixes *)

Lemma slice_bound_range n i : 0 ≤ n → 0 ≤ slice_bound n i ≤ n.
Proof. unfold slice_bound. destruct (Z.ltb_spec i 0); lia. Qed.

(** [s[k:]] is what [s[:k]] leaves. *)
Lemma py_slice_from {A} (s : list A) k :
  py_slice s k (Z.of_nat (length s))
  = drop (Z.to_nat (slice_bound (Z.of_nat (length s)) k)) s.
Proof.
  unfold py_slice.
  pose proof (slice_bound_range (Z.of_nat (length s)) k).
  assert (slice_bound (Z.of_nat (length s)) (Z.of_nat (length s))
          = Z.of_nat (length s)) as ->.
  { unfold slice_bound. destruct (Z.ltb_spec (Z.of_nat (length s)) 0); lia. }
  apply take_ge. rewrite length_drop. lia.
Qed.

Lemma py_slice_to {A} (s : list A) k :
  py_slice s 0 k = take (Z.to_nat (slice_bound (Z.of_nat (length s)) k)) s.
Proof.
  unfold py_slice.
  assert (slice_bound (Z.of_nat (length s)) 0 = 0) as ->.
  { unfold slice_bound. simpl. lia. }
  simpl. by rewrite Z.sub_0_r.
Qed.

(** X22.  [get_suffix] raises [KeyError] for a node without a read, and
    otherwise returns what the slice [read[:overlap_length]] leaves of the
    read: the two put together give the read back, whatever the sign and
    size of [overlap_length]. *)
Theorem get_suffix_completes_prefix (reads : gmap Z sequence) (n : node)
    (overlap_length : Z) :
  match reads !! n with
  | None => get_suffix reads n overlap_length = Raise (KeyError n)
  | Some read =>
      ∃ suffix, get_suffix reads n overlap_length = Ok suffix ∧
                py_slice read 0 overlap_length ++ suffix = read
  end.
Proof.
  unfold get_suffix. destruct (reads !! n) as [read|]; [|done].
  eexists. split; [done|].
  rewrite py_slice_from, py_slice_to. apply take_drop.
Qed.

(** X23.  The length of the suffix: an overlap between 0 and the length of
    the read removes that many letters; a longer one leaves nothing; a
    negative one does not fail but counts from the end, leaving the last
    [- overlap_length] letters, or the whole read if it has fewer. *)
Theorem get_suffix_length (reads : gmap Z sequence) (n : node)
    (overlap_length : Z) read suffix :
  reads !! n = Some read →
  get_suffix reads n overlap_length = Ok suffix →
  Z.of_nat (length suffix) =
  if overlap_length <? 0
  then Z.min (- overlap_length) (Z.of_nat (length read))
  else Z.max (Z.of_nat (length read) - overlap_length) 0.
Proof.
  unfold get_suffix. intros -> [= <-].
  rewrite py_slice_from, length_drop. unfold slice_bound.
  destruct (Z.ltb_spec overlap_length 0); lia.
Qed.

(** X24.  When [get_overlap_length] returns, the overlap and the prefix
    length of the edge add up to the length of the current read; it raises
    [KeyError] when the current node has no read, once the edge is found. *)
Theorem overlap_plus_prefix_is_length
    (find_edge_index : node → node → result Z)
    (graph_prefix_length : Z → result Z) (reads : gmap Z sequence)
    (current_ neighbor : node) edge :
  find_edge_index current_ neighbor = Ok edge →
  match reads !! current_ with
  | None =>
      get_overlap_length find_edge_index graph_prefix_length reads
        current_ neighbor = Raise (KeyError current_)
  | Some read =>
      ∀ overlap_length,
        get_overlap_length find_edge_index graph_prefix_length reads
          current_ neighbor = Ok overlap_length →
        ∃ prefix, graph_prefix_length edge = Ok prefix ∧
                  overlap_length + prefix = Z.of_nat (length read)
  end.
Proof.
  intros Hedge. unfold get_overlap_length. rewrite Hedge.
  cbn [mbind result_bind].
  destruct (reads !! current_) as [read|]; [|done].
  intros overlap_length H. inv_bind H. injection H as <-.
  exists a. split; [done|lia].
Qed.

(** ** The mapping-quality oracle *)

(** [max] keeps the first of several greatest elements. *)
Lemma max_from_first {A} (key : A → Q) (xs : list A) : ∀ best,
  ∃ pre post,
    best :: xs = pre ++ max_from key best xs :: post ∧
    (∀ y, y ∈ pre → Qlt (key y) (key (max_from key best xs))) ∧
    (∀ y, y ∈ post → Qle (key y) (key (max_from key best xs))).
Proof.
  induction xs as [|x xs IH]; intros best; simpl.
  - exists [], []. split_and!; [done|intros y Hy..]; by apply elem_of_nil in Hy.
  - destruct (Qlt_bool (key best) (key x)) eqn:Hlt.
    + assert (Qlt (key best) (key x)) as Hbx.
      { unfold Qlt_bool in Hlt. apply negb_true_iff in Hlt.
        apply Qnot_le_lt. intros Hle. apply Qle_bool_iff in Hle. congruence. }
      destruct (IH x) as (pre & post & Heq & Hpre & Hpost).
      exists (best :: pre), post. split_and!; [by rewrite Heq at 1| |done].
      intros y [->|Hy]%elem_of_cons; [|by apply Hpre].
      destruct pre as [|p pre]; simpl in Heq.
      * injection Heq as Hx _. by rewrite <- Hx.
      * injection Heq as <- _. eapply Qlt_trans; [exact Hbx|].
        apply Hpre. by left.
    + apply Qlt_bool_false in Hlt.
      destruct (IH best) as (pre & post & Heq & Hpre & Hpost).
      destruct pre as [|b pre]; simpl in Heq.
      * injection Heq as Hb <-. exists [], (x :: xs).
        rewrite <- Hb at 1. split_and!; [done| |].
        -- intros y Hy. by apply elem_of_nil in Hy.
        -- intros y [->|Hy]%elem_of_cons; [|by apply Hpost].
           by rewrite <- Hb.
      * injection Heq as <- Hxs. exists (best :: x :: pre), post.
        split_and!; [by rewrite Hxs at 1| |done].
        intros y [->|[->|Hy]%elem_of_cons]%elem_of_cons.
        -- apply Hpre. by left.
        -- eapply Qle_lt_trans; [exact Hlt|]. apply Hpre. by left.
        -- apply Hpre. by right.
Qed.

Section MinimapFacts.
Variable env : oracle_env.
Variable menv : minimap_env.

Lemma minimap_score_inv walk n r :
minimap_score env menv walk n = Ok r →
∃ sq,
  translate_nodes_into_sequence2 env (node_tr walk n) = Ok sq ∧
  open_fasta menv ("concat_reads/" +:+ fasta_name (node_tr walk n))
  = Ok () ∧
  r.2 = (n, quality_or_zero menv (aligner_map env (clip sq))
              (Z.of_nat (length (clip sq)))) ∧
  r.1 = [Print_neighbor n;
         Write_fasta ("concat_reads/" +:+ fasta_name (node_tr walk n))
           (">" +:+ fasta_name (node_tr walk n))
           (concat (replicate 10 (clip sq)));
         Print_quality r.2.2].
Proof.
unfold minimap_score. intros H. inv_bind H. inv_bind H. destruct a0.
injection H as <-. by exists a.
Qed.

Lemma minimap_scores_loop walk ns : ∀ acc r,
for_each ns
  (fun acc neighbor =>
     r ← minimap_score env menv walk neighbor;
     Ok (acc.1 ++ r.1, acc.2 ++ [r.2])) acc = Ok r →
∃ rs, Forall2 (fun n r => minimap_score env menv walk n = Ok r) ns rs ∧
      r = (acc.1 ++ concat rs.*1, acc.2 ++ rs.*2).
Proof.
induction ns as [|n ns IH]; simpl; intros acc r H.
- injection H as <-. exists []. split; [constructor|].
  simpl. rewrite !app_nil_r. by destruct acc.
- inv_bind H. inv_bind Hbind. injection Hbind as <-.
  destruct (IH _ _ H) as (rs & Hall & ->). exists (a0 :: rs).
  split; [by constructor|]. simpl. by rewrite <- !app_assoc.
Qed.

(** X25.  When [get_minimap_best] returns, it returns the first of the
  neighbors of greatest quality: the scores are those of the neighbors in
  their order, every neighbor before the one returned has a strictly
  smaller quality, and none after it has a greater one. *)
Theorem minimap_best_is_first_of_greatest current_ neighbors walk evs best :
get_minimap_best env menv current_ neighbors walk = Ok (evs, best) →
∃ ns pre q post,
  neighbors !! current_ = Some ns ∧ best ∈ ns ∧
  ns = pre.*1 ++ best :: post.*1 ∧
  (∀ d, d ∈ pre ++ (best, q) :: post →
        ∃ e, minimap_score env menv walk d.1 = Ok (e, d)) ∧
  (∀ d, d ∈ pre → Qlt d.2 q) ∧
  (∀ d, d ∈ post → Qle d.2 q).
Proof.
unfold get_minimap_best.
destruct (neighbors !! current_) as [ns|]; [|discriminate].
intros H. inv_bind H. unfold minimap_scores in Hbind.
apply minimap_scores_loop in Hbind as (rs & Hall & ->). simpl in H.
destruct (rs.*2) as [|d0 ds] eqn:Hrs; [discriminate|]. simpl in H.
destruct (max_from_first snd ds d0) as (pre & post & Heq & Hpre & Hpost).
destruct (max_from snd d0 ds) as [b q]. injection H as _ <-.
assert (∀ d, d ∈ rs.*2 → ∃ e, minimap_score env menv walk d.1 = Ok (e, d))
  as Hscore.
{ intros d Hd. apply list_elem_of_fmap in Hd as ([e d'] & -> & Hin).
  apply list_elem_of_lookup in Hin as (i & Hi).
  destruct (Forall2_lookup_r _ _ _ _ _ Hall Hi) as (n & _ & Hn).
  pose proof (minimap_score_inv _ _ _ Hn) as (sq & _ & _ & Hd' & _).
  simpl in *. rewrite Hd' in Hn |- *. simpl. eauto. }
assert (rs.*2.*1 = ns) as Hns.
{ clear -Hall. induction Hall as [|n r ns rs Hr _ IH]; [done|].
  rewrite !fmap_cons, IH. f_equal.
  by pose proof (minimap_score_inv _ _ _ Hr) as (sq & _ & _ & -> & _). }
rewrite Hrs, Heq in Hns, Hscore.
rewrite fmap_app, fmap_cons in Hns. simpl in Hns.
exists ns, pre, q, post. split_and!; [done| |done..].
rewrite <- Hns. apply elem_of_app. right. by left.
Qed.

(** X26.  [get_minimap_best] raises [KeyError] for a node without an
  entry and the [ValueError] of [max] for a node without neighbors.
  When the node has neighbors and, for each of them, the sequence can be
  built and the file opened, it returns, whatever [get_quality] does: a
  failure to compute a quality is never passed on. *)
Theorem minimap_best_returns current_ neighbors walk :
match neighbors !! current_ with
| None =>
    get_minimap_best env menv current_ neighbors walk
    = Raise (KeyError current_)
| Some [] =>
    get_minimap_best env menv current_ neighbors walk = Raise ValueError
| Some ns =>
    (∀ n, n ∈ ns →
          (∃ sq, translate_nodes_into_sequence2 env (node_tr walk n)
                 = Ok sq) ∧
          open_fasta menv ("concat_reads/" +:+ fasta_name (node_tr walk n))
          = Ok ()) →
    ∃ evs best,
      get_minimap_best env menv current_ neighbors walk = Ok (evs, best)
end.
Proof.
unfold get_minimap_best.
destruct (neighbors !! current_) as [[|n0 ns]|]; [done| |done].
intros Hok.
assert (∀ ns' acc,
          (∀ n, n ∈ ns' → n ∈ n0 :: ns) →
          ∃ r, for_each ns'
                 (fun acc neighbor =>
                    r ← minimap_score env menv walk neighbor;
                    Ok (acc.1 ++ r.1, acc.2 ++ [r.2])) acc = Ok r ∧
               length r.2 = (length acc.2 + length ns')%nat) as Hloop.
{ induction ns' as [|n ns' IH]; intros acc Hsub.
  - exists acc. split; [done|simpl; lia].
  - destruct (Hok n) as [[sq Hsq] Hopen]; [apply Hsub; by left|].
    assert (∃ r0, minimap_score env menv walk n = Ok r0) as [r0 Hr0].
    { unfold minimap_score. cbv zeta. rewrite Hsq.
      cbn [mbind result_bind]. rewrite Hopen. cbn [mbind result_bind].
      eauto. }
    cbn [for_each]. rewrite Hr0. cbn [mbind result_bind].
    edestruct IH as (r & -> & Hlen); [intros; apply Hsub; by right|].
    exists r. split; [done|]. rewrite Hlen. simpl. rewrite length_app.
    simpl. lia. }
destruct (Hloop (n0 :: ns) ([], [])) as (r & Hr & Hlen); [done|].
unfold minimap_scores. rewrite Hr. cbn [mbind result_bind].
destruct r.2 as [|d ds]; [simpl in Hlen; lia|]. simpl.
destruct (max_from snd d ds). eauto.
Qed.

(** X27.  What is aligned for a neighbor: the sequence of the last three
  nodes of the walk, or of all of them if there are fewer, followed by
  the neighbor, cut down to its last 50000 letters when it is longer. *)
Theorem minimap_aligns_the_tail walk n r :
minimap_score env menv walk n = Ok r →
∃ before seen sq cut,
  walk = before ++ seen ∧
  length seen = Nat.min 3 (length walk) ∧
  translate_nodes_into_sequence2 env (seen ++ [n]) = Ok sq ∧
  sq = cut ++ clip sq ∧
  Z.of_nat (length (clip sq)) = Z.min (Z.of_nat (length sq)) 50000 ∧
  r.2 = (n, quality_or_zero menv (aligner_map env (clip sq))
              (Z.of_nat (length (clip sq)))).
Proof.
intros H. apply minimap_score_inv in H as (sq & Hsq & _ & Hr & _).
unfold node_tr in Hsq. rewrite py_slice_from in Hsq.
set (k := Z.to_nat (slice_bound (Z.of_nat (length walk))
                      (- Z.min 3 (Z.of_nat (length walk))))) in *.
assert (k = (length walk - Nat.min 3 (length walk))%nat) as Hk.
{ unfold k, slice_bound.
  destruct (Z.ltb_spec (- Z.min 3 (Z.of_nat (length walk))) 0); lia. }
exists (take k walk), (drop k walk), sq.
unfold clip. rewrite py_slice_from.
set (j := Z.to_nat (slice_bound (Z.of_nat (length sq))
                      (- Z.min (Z.of_nat (length sq)) 50000))) in *.
assert (Z.of_nat j = Z.of_nat (length sq) - Z.min (Z.of_nat (length sq)) 50000)
  as Hj.
{ unfold j, slice_bound.
  destruct (Z.ltb_spec (- Z.min (Z.of_nat (length sq)) 50000) 0); lia. }
exists (take j sq).
split_and!; [by rewrite take_drop| |done|by rewrite take_drop| |].
- rewrite length_drop. lia.
- rewrite length_drop. lia.
- rewrite Hr. unfold clip. by rewrite py_slice_from.
Qed.
End MinimapFacts.

(** ** The further properties at the worked instance *)

Section ExtraInstance.
Import Example.

Local Abbreviation seq_model := (ex_model SequentialModel).
Local Abbreviation gcn_model := (ex_model GCNModel).

(** Case analysis on a lookup in a map given by its list of entries. *)
Ltac entries H :=
cbn [list_to_map foldr fst snd] in H;
repeat (apply lookup_insert_Some in H as [[<- <-]|[_ H]]);
[..|by rewrite lookup_empty in H].

Lemma get_paths_exactly_the_walks_witness :
[10; 8; 6; 4; 0] ∈
  [[10; 8; 6; 2; 0]; [12; 8; 6; 2; 0]; [10; 8; 6; 4; 0]; [12; 8; 6; 4; 0]] ↔
length [10; 8; 6; 4; 0] = 5%nat ∧ last [10; 8; 6; 4; 0] = Some 0 ∧
is_chain ex_neighbors (rev [10; 8; 6; 4; 0]) = true.
Proof.
apply (get_paths_exactly_the_walks ex_neighbors 4 0). by vm_compute.
Defined.

Lemma get_paths_raises_missing_key_witness :
(∃ k, KeyError 6 = KeyError k ∧ lookahead_neighbors !! k = None ∧
      (k = 0 ∨ ∃ a ns, lookahead_neighbors !! a = Some ns ∧ k ∈ ns)) ∧
(∃ paths, get_paths chain_neighbors 4 0 = Ok paths).
Proof.
split.
- apply (get_paths_raises_missing_key lookahead_neighbors 4 0).
  by vm_compute.
- apply (get_paths_raises_missing_key chain_neighbors 4 0).
  + exists [2]. by vm_compute.
  + intros a ns n Ha Hn. unfold chain_neighbors in Ha. entries Ha.
    * apply list_elem_of_singleton in Hn as ->. exists [4]. by vm_compute.
    * apply list_elem_of_singleton in Hn as ->. exists []. by vm_compute.
    * by apply elem_of_nil in Hn.
Defined.

Lemma oracle_answer_is_neighbor_witness :
∃ ns rest,
  ex_neighbors !! 0 = Some ns ∧ 4 ∈ ns ∧ length rest = 3%nat ∧
  is_chain ex_neighbors (0 :: 4 :: rest) = true.
Proof.
apply (oracle_answer_is_neighbor ex_env 7 0 ex_neighbors [] 4).
by vm_compute.
Defined.

Lemma oracle_takes_first_minimum_witness :
∃ pre best score post,
  [([0; 2; 6; 8; 10], 2 # 16); ([0; 2; 6; 8; 12], 6 # 16);
   ([0; 4; 6; 8; 10], 0 # 16); ([0; 4; 6; 8; 12], 4 # 16)]
  = pre ++ (best, score) :: post ∧
  best !! 1%nat = Some 4 ∧
  (∀ d, d ∈ pre → Qlt score d.2) ∧
  (∀ d, d ∈ post → Qle score d.2).
Proof.
apply (oracle_takes_first_minimum ex_env 7 0 ex_neighbors 0 4 1
         [[0; 2; 6; 8; 10]; [0; 2; 6; 8; 12];
          [0; 4; 6; 8; 10]; [0; 4; 6; 8; 12]]);
  by vm_compute.
Defined.

Lemma oracle_needs_four_hops_witness :
get_edlib_best ex_env 7 0 short_neighbors
= Ok ([AllOppositeStrand; GraphIndex 7; CurrentNode 0; CandidatePaths []],
      None).
Proof.
apply (oracle_needs_four_hops ex_env 7 0 short_neighbors 0 4 1 []);
  [by vm_compute..|].
intros p Hlen Hhead.
destruct p as [|a [|b p]]; try discriminate.
injection Hhead as ->. cbn [is_chain]. unfold is_edge.
change (short_neighbors !! 0) with (Some [2; 4]). cbv beta iota.
destruct (bool_decide_reflect (b ∈ [2; 4])) as [Hb|]; [|done].
destruct p as [|c p]; [discriminate|].
apply elem_of_cons in Hb as [->|Hb];
  [|apply list_elem_of_singleton in Hb as ->]; by vm_compute.
Defined.

Lemma oracle_divides_by_window_witness :
get_edlib_best empty_env 7 0 ex_neighbors = Raise ZeroDivisionError.
Proof.
apply (oracle_divides_by_window empty_env 7 0 ex_neighbors 0 4 1
         [0; 2; 6; 8; 10]
         [[0; 2; 6; 8; 12]; [0; 4; 6; 8; 10]; [0; 4; 6; 8; 12]]
         0 2 0 4 [] 2); by vm_compute.
Defined.

Lemma model_choice_is_neighbor_witness :
length [3; 1] = length [2; 4] ∧ [2; 4] !! 0%nat = Some 2 ∧ 2 ∈ [2; 4].
Proof.
apply (model_choice_is_neighbor gcn_model [2; 4] (ex_start GCNModel)
         [3; 1] 0%nat 2).
by vm_compute.
Defined.

Lemma model_choice_needs_ids_in_table_witness :
(∃ actions i choice,
   model_choice gcn_model [2; -1] (ex_start GCNModel)
   = Ok (actions, i, choice)) ∧
model_choice gcn_model [2; 22] (ex_start GCNModel) = Raise IndexError.
Proof.
split.
- apply (model_choice_needs_ids_in_table gcn_model [2; -1]
           (ex_start GCNModel) ex_scores); [by vm_compute|done|].
  repeat constructor; unfold in_table; simpl; lia.
- apply (model_choice_needs_ids_in_table gcn_model [2; 22]
           (ex_start GCNModel) ex_scores); [by vm_compute|done|].
  intros Hall. apply Forall_cons_1 in Hall as [_ Hall].
  apply Forall_cons_1 in Hall as [Hin _].
  unfold in_table in Hin. simpl in Hin. lia.
Defined.

Lemma topk1_is_maximal_witness :
∃ x, [3; 1; 7; 7; 2] !! 2%nat = Some x ∧
     ∀ y, y ∈ [3; 1; 7; 7; 2] → score_ltb gcn_model x y = false.
Proof.
apply (topk1_is_maximal gcn_model [3; 1; 7; 7; 2] 2%nat).
- intros a. simpl. lia.
- intros a b c. simpl. lia.
- by vm_compute.
Defined.

Lemma walk_follows_edges_witness :
is_chain ex_neighbors (walk (run_state (ex_loop SequentialModel "train")))
= true ∧
head (walk (run_state (ex_loop SequentialModel "train"))) = Some 0.
Proof.
apply (walk_follows_edges seq_model ex_env 7 ex_neighbors "train" 0%nat 0 12).
by vm_compute.
Defined.

Lemma walk_never_repeats_witness :
∃ before last_,
  walk (run_state (ex_loop SequentialModel "train")) = before ++ [last_] ∧
  NoDup before ∧
  ∀ n, n ∈ before → complement n ∉ before.
Proof.
apply (walk_never_repeats seq_model ex_env 7 ex_neighbors "train" 0%nat 0 12).
by vm_compute.
Defined.

Lemma visited_is_walk_and_pairs_witness :
5 ∈ visited (run_state (ex_loop SequentialModel "train")) ↔
5 ∈ walk (run_state (ex_loop SequentialModel "train")) ∨
complement 5 ∈ walk (run_state (ex_loop SequentialModel "train")).
Proof.
apply (visited_is_walk_and_pairs seq_model ex_env 7 ex_neighbors "train"
         0%nat 0 12 5).
by vm_compute.
Defined.

Lemma walk_is_bounded_witness :
(length (walk (run_state (ex_loop SequentialModel "train")))
 ≤ S (size (walkable ex_neighbors 0)))%nat.
Proof.
apply (walk_is_bounded seq_model ex_env 7 ex_neighbors "train" 0%nat 22
         ex_pred 0 12).
by vm_compute.
Defined.

Lemma evaluation_updates_nothing_witness :
final_weights <$> ex_call SequentialModel "eval" = Some 0%nat ∧
optimizer_events <$> (events <$> ex_call SequentialModel "eval") = Some [].
Proof.
destruct (ex_call SequentialModel "eval") as [o|] eqn:Hcall;
  [|by vm_compute in Hcall].
destruct (evaluation_updates_nothing seq_model ex_env 7 ex_neighbors "eval"
            0%nat 22 ex_pred o) as [Hw Ho]; [by vm_compute|exact Hcall|].
simpl. rewrite Hw, Ho. split; reflexivity.
Defined.

Lemma training_updates_weights_witness :
final_weights <$> ex_call SequentialModel "train"
= Some (fold_left (optimizer_update seq_model)
          [CrossEntropy [3; 1] 0; CrossEntropy [5; 2] 0] 0%nat) ∧
∃ l ls,
  [CrossEntropy [3; 1] 0; CrossEntropy [5; 2] 0] = l :: ls ∧
  final_weights <$> ex_call GCNModel "train"
  = Some (optimizer_update gcn_model 0%nat
            (fold_left (loss_add gcn_model) ls l)).
Proof.
split.
- destruct (ex_call SequentialModel "train") as [o|] eqn:Hcall;
    [|by vm_compute in Hcall].
  pose proof (training_updates_weights seq_model ex_env 7 ex_neighbors
                "train" 0%nat 22 ex_pred o
                [CrossEntropy [3; 1] 0; CrossEntropy [5; 2] 0] (1 # 2)
                eq_refl Hcall) as Hw.
  simpl in Hw. simpl. rewrite Hw; [done|].
  vm_compute in Hcall. injection Hcall as <-. reflexivity.
- destruct (ex_call GCNModel "train") as [o|] eqn:Hcall;
    [|by vm_compute in Hcall].
  pose proof (training_updates_weights gcn_model ex_env 7 ex_neighbors
                "train" 0%nat 22 ex_pred o
                [CrossEntropy [3; 1] 0; CrossEntropy [5; 2] 0] (1 # 2)
                eq_refl Hcall) as Hw.
  simpl in Hw. destruct Hw as (l & ls & Hl & Hw).
  { vm_compute in Hcall. injection Hcall as <-. reflexivity. }
  exists l, ls. split; [done|]. simpl. by rewrite Hw.
Defined.

Lemma returned_accuracy_is_a_ratio_witness :
∃ correct_ : nat,
  (correct_ ≤ 2)%nat ∧ (0 < 2)%nat ∧
  1 # 2 = Qdiv (inject_Z (Z.of_nat correct_)) (inject_Z (Z.of_nat 2)) ∧
  Qle 0 (1 # 2) ∧ Qle (1 # 2) 1.
Proof.
destruct (ex_call GCNModel "eval") as [o|] eqn:Hcall;
  [|by vm_compute in Hcall].
apply (returned_accuracy_is_a_ratio gcn_model ex_env 7 ex_neighbors "eval"
         0%nat 22 ex_pred o
         [CrossEntropy [3; 1] 0; CrossEntropy [5; 2] 0] (1 # 2) Hcall).
vm_compute in Hcall. injection Hcall as <-. reflexivity.
Defined.

Lemma linear_graph_never_returns_witness :
∃ o, process seq_model ex_env 7 chain_neighbors "train" 0%nat 22 ex_pred
     = Some o ∧
     (returned o = Raise IndexError ∨
      (∃ k, returned o = Raise (KeyError k) ∧ chain_neighbors !! k = None) ∨
      (returned o = Raise AttributeError ∧
       kind seq_model = GCNModel ∧ training "train" = true) ∨
      (returned o = Raise ZeroDivisionError ∧
       ¬ (kind seq_model = GCNModel ∧ training "train" = true))).
Proof.
destruct (process seq_model ex_env 7 chain_neighbors "train" 0%nat 22
            ex_pred) as [o|] eqn:Hcall; [|by vm_compute in Hcall].
exists o. split; [done|].
apply (linear_graph_never_returns seq_model ex_env 7 chain_neighbors
         "train" 0%nat 22 ex_pred o); [|exact Hcall].
intros k ns H. unfold chain_neighbors in H. entries H; simpl; lia.
Defined.

Lemma other_model_never_returns_witness :
∃ o, ex_call OtherModel "train" = Some o ∧
     (∃ e, returned o = Raise e) ∧ final_weights o = 0%nat.
Proof.
destruct (ex_call OtherModel "train") as [o|] eqn:Hcall;
  [|by vm_compute in Hcall].
exists o. split; [done|].
by apply (other_model_never_returns (ex_model OtherModel) ex_env 7
            ex_neighbors "train" 0%nat 22 ex_pred o).
Defined.

Lemma gcn_scores_are_computed_once_witness :
∃ o, ex_call GCNModel "train" = Some o ∧
     model_events (events o) = [Model_embed; Model_classify] ∧
     ∀ previous_ current_ ns actions choice truth,
       Print_prediction previous_ current_ ns actions choice truth
       ∈ events o →
       tensor_gather
         (classify gcn_model 0%nat (embed gcn_model 0%nat (zeros gcn_model)))
         ns = Ok actions.
Proof.
destruct (ex_call GCNModel "train") as [o|] eqn:Hcall;
  [|by vm_compute in Hcall].
exists o. split; [done|].
apply (gcn_scores_are_computed_once gcn_model ex_env 7 ex_neighbors "train"
         0%nat 22 ex_pred o); [done|by vm_compute|exact Hcall].
Defined.

Lemma oracle_exception_is_not_logged_witness :
∃ s', step seq_model ex_env 7 lookahead_neighbors "train"
        (ex_start SequentialModel) = Abort (KeyError 6) s' ∧
      (∀ fuel, loop seq_model ex_env 7 lookahead_neighbors "train" (S fuel)
                 (ex_start SequentialModel) = Raised (KeyError 6) s') ∧
      output s' = output (ex_start SequentialModel) ++
                  (if decide (kind seq_model = SequentialModel)
                   then [Model_forward] else []).
Proof.
apply (oracle_exception_is_not_logged seq_model ex_env 7 lookahead_neighbors
         "train" (ex_start SequentialModel) [2; 4] [3; 1] 0%nat 2
         (KeyError 6)); by vm_compute.
Defined.

Lemma walk_does_not_depend_on_model_witness :
current (ex_after_eight SequentialModel "train")
= current (ex_after_eight GCNModel "eval") ∧
visited (ex_after_eight SequentialModel "train")
= visited (ex_after_eight GCNModel "eval") ∧
walk (ex_after_eight SequentialModel "train")
= walk (ex_after_eight GCNModel "eval").
Proof.
apply (walk_does_not_depend_on_model seq_model gcn_model ex_env 7
         ex_neighbors "train" "eval" 8
         (ex_start SequentialModel) (ex_after_eight SequentialModel "train")
         (ex_start GCNModel) (ex_after_eight GCNModel "eval"));
  by vm_compute.
Defined.

Lemma get_suffix_length_witness :
Z.of_nat (length (dna "T")) =
if -1 <? 0 then Z.min (- -1) (Z.of_nat (length (dna "ACGT")))
else Z.max (Z.of_nat (length (dna "ACGT")) - -1) 0.
Proof.
apply (get_suffix_length ex_reads 0 (-1) (dna "ACGT") (dna "T"));
  by vm_compute.
Defined.

Lemma overlap_plus_prefix_is_length_witness :
∃ prefix, ex_graph_prefix_length 1 = Ok prefix ∧
          1 + prefix = Z.of_nat (length (dna "GTAC")).
Proof.
pose proof (overlap_plus_prefix_is_length ex_find_edge_index
              ex_graph_prefix_length ex_reads 2 4 1) as H.
change (ex_reads !! 2) with (Some (dna "GTAC")) in H.
apply H; by vm_compute.
Defined.

Lemma minimap_best_is_first_of_greatest_witness :
∃ ns pre q post,
  ex_neighbors !! 8 = Some ns ∧ 10 ∈ ns ∧
  ns = pre.*1 ++ 10 :: post.*1 ∧
  (∀ d, d ∈ pre ++ (10, q) :: post →
        ∃ e, minimap_score minimap_oracle ex_menv [0; 4; 6; 8] d.1
             = Ok (e, d)) ∧
  (∀ d, d ∈ pre → Qlt d.2 q) ∧
  (∀ d, d ∈ post → Qle d.2 q).
Proof.
destruct (get_minimap_best minimap_oracle ex_menv 8 ex_neighbors
            [0; 4; 6; 8]) as [[evs best]|] eqn:Hbest;
  [|by vm_compute in Hbest].
assert (best = 10) as -> by (vm_compute in Hbest; by injection Hbest).
exact (minimap_best_is_first_of_greatest minimap_oracle ex_menv 8
         ex_neighbors [0; 4; 6; 8] evs 10 Hbest).
Defined.

Lemma minimap_best_returns_witness :
∃ evs best,
  get_minimap_best minimap_oracle ex_menv 8 ex_neighbors [0; 4; 6; 8]
  = Ok (evs, best).
Proof.
pose proof (minimap_best_returns minimap_oracle ex_menv 8 ex_neighbors
              [0; 4; 6; 8]) as H.
change (ex_neighbors !! 8) with (Some [10; 12]) in H.
apply H. intros n Hn. split; [|done]. eexists. reflexivity.
Defined.

Lemma minimap_aligns_the_tail_witness :
∃ before seen sq cut,
  [0; 4; 6; 8] = before ++ seen ∧
  length seen = Nat.min 3 (length [0; 4; 6; 8]) ∧
  translate_nodes_into_sequence2 minimap_oracle (seen ++ [12]) = Ok sq ∧
  sq = cut ++ clip sq ∧
  Z.of_nat (length (clip sq)) = Z.min (Z.of_nat (length sq)) 50000 ∧
  (12, 0%Q) = (12, quality_or_zero ex_menv
                     (aligner_map minimap_oracle (clip sq))
                     (Z.of_nat (length (clip sq)))).
Proof.
destruct (minimap_score minimap_oracle ex_menv [0; 4; 6; 8] 12)
  as [r|] eqn:Hr; [|by vm_compute in Hr].
assert (r.2 = (12, 0%Q)) as <- by (vm_compute in Hr; by injection Hr as <-).
exact (minimap_aligns_the_tail minimap_oracle ex_menv [0; 4; 6; 8] 12 r Hr).
Defined.
End ExtraInstance.
